(** * The subprocess-to-iterator bridge of generaltranslation/codex

    Shallow embedding of [codex-sdk/src/sdk.ts] (class [AsyncQueue], the
    stdout line framer, the close/error handlers of [run]) and of the
    second copy of the bridge shipped with codex-cli ([query]).

    JavaScript runs these pieces on one thread: a callback (stdout data,
    process close, process error), a promise continuation or a resumption
    of the consumer's generator runs to its next suspension point without
    being interrupted.  The embedding therefore makes each of them one
    atomic transition on an explicit state and quantifies over the order in
    which the transitions are taken. *)

From Stdlib Require Import ZArith Lia Ascii String DecimalString.
From stdpp Require Import base tactics option list.

Open Scope nat_scope.

(** ** Part I.  The program *)

(** *** [class AsyncQueue<T>] of codex-sdk/src/sdk.ts (lines 11-74) *)

Module AsyncQueue.
Section Defs.
Context {T E : Type}.

(** [q : Array<T | Error | symbol>]: a value, an [Error] instance, or
    the [DONE] symbol. *)
Inductive Slot :=
| Item (value : T)
| Failure (err : E)
| DONE.

(** [IteratorResult<T>] as the three methods build it:
    [{ done: false, value }] or [{ done: true, value: undefined }]. *)
Inductive IteratorResult :=
| IRValue (value : T)
| IRDone.

(** Where the body of [async *iterator()] is suspended.
    - [LoopHead]: not started yet, or parked at a [yield]; the next
      resumption re-enters [while (true)].
    - [Awaiting p]: parked at [await new Promise(...)], promise [p].
    - [Resumed next]: promise settled with [next], continuation not yet
      run.
    - [Completed]: the generator returned or threw. *)
Inductive Gen :=
| LoopHead
| Awaiting (p : nat)
| Resumed (next : IteratorResult)
| Completed.

(** What one pull of the consumer's [for await] observes. *)
Inductive Obs :=
| Yield (value : T)
| Throw (err : E)
| Return.

(** The queue object, the generator reading it, the promises allocated
    so far (a resolver is the index of its promise) and the callbacks
    handed to [setImmediate], each of which throws its error outside of
    any pull. *)
Record State := mkState {
  q : list Slot;
  pending : option nat;
  gen : Gen;
  promises : nat;
  immediates : list E;
}.

Definition set_q (l : list Slot) (st : State) : State :=
  mkState l (pending st) (gen st) (promises st) (immediates st).
Definition set_pending (r : option nat) (st : State) : State :=
  mkState (q st) r (gen st) (promises st) (immediates st).
Definition set_gen (g : Gen) (st : State) : State :=
  mkState (q st) (pending st) g (promises st) (immediates st).
Definition setImmediate_throw (err : E) (st : State) : State :=
  mkState (q st) (pending st) (gen st) (promises st) (immediates st ++ [err]).

(** Calling the resolver of promise [p]: the awaiting generator becomes
    runnable with the result; settling a promise nobody awaits changes
    nothing. *)
Definition resolve (p : nat) (r : IteratorResult) (st : State) : State :=
  match gen st with
  | Awaiting p' => if decide (p = p') then set_gen (Resumed r) st else st
  | _ => st
  end.

Definition push (value : T) (st : State) : State :=
  match pending st with
  | Some resolve_ => resolve resolve_ (IRValue value) (set_pending None st)
  | None => set_q (q st ++ [Item value]) st
  end.

Definition error (err : E) (st : State) : State :=
  match pending st with
  | Some pending_ =>
      resolve pending_ IRDone (setImmediate_throw err (set_pending None st))
  | None => set_q (q st ++ [Failure err]) st
  end.

Definition end_ (st : State) : State :=
  match pending st with
  | Some resolve_ => resolve resolve_ IRDone (set_pending None st)
  | None => set_q (q st ++ [DONE]) st
  end.

(** One resumption of [iterator()], run up to its next suspension point,
    with what the pull observes there (nothing when the generator parks
    at the [await], is still parked there, or has already finished). *)
Definition iterator (st : State) : State * option Obs :=
  match gen st with
  | LoopHead =>
      match q st with
      | [] =>
          let p := promises st in
          (mkState [] (Some p) (Awaiting p) (S p) (immediates st), None)
      | DONE :: rest => (set_gen Completed (set_q rest st), Some Return)
      | Failure err :: rest =>
          (set_gen Completed (set_q rest st), Some (Throw err))
      | Item value :: rest => (set_q rest st, Some (Yield value))
      end
  | Awaiting _ => (st, None)
  | Resumed IRDone => (set_gen Completed st, Some Return)
  | Resumed (IRValue value) => (set_gen LoopHead st, Some (Yield value))
  | Completed => (st, None)
  end.

(** [new AsyncQueue()] before the first pull. *)
Definition init : State := mkState [] None LoopHead 0 [].

(** A schedule: producer calls and consumer resumptions in the order
    the event loop runs them. *)
Inductive Op :=
| OPush (value : T)
| OError (err : E)
| OEnd
| OPull.

Definition step (c : State * list Obs) (op : Op) : State * list Obs :=
  match op with
  | OPush value => (push value c.1, c.2)
  | OError err => (error err c.1, c.2)
  | OEnd => (end_ c.1, c.2)
  | OPull => let '(st, o) := iterator c.1 in (st, c.2 ++ option_list o)
  end.

Definition exec (ops : list Op) (c : State * list Obs) : State * list Obs :=
  foldl step c ops.

Definition run (ops : list Op) : State * list Obs := exec ops (init, []).
End Defs.
Arguments Slot : clear implicits.
Arguments IteratorResult : clear implicits.
Arguments Gen : clear implicits.
Arguments Obs : clear implicits.
Arguments State : clear implicits.
Arguments Op : clear implicits.
End AsyncQueue.

(** *** The second [class AsyncQueue<T>], shipped with codex-cli
    (codex-cli/src/README.md, lines 279-342).

    Slots, iterator results, observations and schedules are the types of
    the first copy; the object state and the generator are this class's. *)

Module CliAsyncQueue.
Import AsyncQueue.
Section Defs.
Context {T E : Type}.

Inductive CGen :=
| CLoopHead
| CAwaiting (p : nat)
| CResumed (next : IteratorResult T)
| CCompleted.

Record CState := mkCState {
  cq : list (Slot T E);
  cpending : option nat;
  cgen : CGen;
  cpromises : nat;
  cimmediates : list E;
}.

Definition cresolve (p : nat) (r : IteratorResult T) (st : CState) : CState :=
  match cgen st with
  | CAwaiting p' =>
      if decide (p = p')
      then mkCState (cq st) (cpending st) (CResumed r) (cpromises st)
             (cimmediates st)
      else st
  | _ => st
  end.

Definition push (value : T) (st : CState) : CState :=
  match cpending st with
  | Some resolve_ =>
      cresolve resolve_ (IRValue value)
        (mkCState (cq st) None (cgen st) (cpromises st) (cimmediates st))
  | None =>
      mkCState (cq st ++ [Item value]) None (cgen st) (cpromises st)
        (cimmediates st)
  end.

Definition error (err : E) (st : CState) : CState :=
  match cpending st with
  | Some pending_ =>
      cresolve pending_ IRDone
        (mkCState (cq st) None (cgen st) (cpromises st)
           (cimmediates st ++ [err]))
  | None =>
      mkCState (cq st ++ [Failure err]) None (cgen st) (cpromises st)
        (cimmediates st)
  end.

Definition end_ (st : CState) : CState :=
  match cpending st with
  | Some resolve_ =>
      cresolve resolve_ IRDone
        (mkCState (cq st) None (cgen st) (cpromises st) (cimmediates st))
  | None =>
      mkCState (cq st ++ [DONE]) None (cgen st) (cpromises st)
        (cimmediates st)
  end.

Definition iterator (st : CState) : CState * option (Obs T E) :=
  match cgen st with
  | CLoopHead =>
      match cq st with
      | [] =>
          (mkCState [] (Some (cpromises st)) (CAwaiting (cpromises st))
             (S (cpromises st)) (cimmediates st), None)
      | item :: rest =>
          let st' := mkCState rest (cpending st) CLoopHead (cpromises st)
                       (cimmediates st) in
          match item with
          | DONE =>
              (mkCState rest (cpending st) CCompleted (cpromises st)
                 (cimmediates st), Some Return)
          | Failure err =>
              (mkCState rest (cpending st) CCompleted (cpromises st)
                 (cimmediates st), Some (Throw err))
          | Item value => (st', Some (Yield value))
          end
      end
  | CAwaiting _ => (st, None)
  | CResumed next =>
      match next with
      | IRDone =>
          (mkCState (cq st) (cpending st) CCompleted (cpromises st)
             (cimmediates st), Some Return)
      | IRValue value =>
          (mkCState (cq st) (cpending st) CLoopHead (cpromises st)
             (cimmediates st), Some (Yield value))
      end
  | CCompleted => (st, None)
  end.

Definition init : CState := mkCState [] None CLoopHead 0 [].

Definition step (c : CState * list (Obs T E)) (op : Op T E)
  : CState * list (Obs T E) :=
  match op with
  | OPush value => (push value c.1, c.2)
  | OError err => (error err c.1, c.2)
  | OEnd => (end_ c.1, c.2)
  | OPull => let '(st, o) := iterator c.1 in (st, c.2 ++ option_list o)
  end.

Definition run (ops : list (Op T E)) : CState * list (Obs T E) :=
  foldl step (init, []) ops.
End Defs.
Arguments CGen : clear implicits.
Arguments CState : clear implicits.
End CliAsyncQueue.

(** *** Text: [String.prototype.split], [trim], template literals *)

Module Text.
(** Characters are 8-bit code units (the Latin-1 range of JavaScript's
    UTF-16 units); chunks are the text [data.toString()] returns. *)
Definition LF : ascii := ascii_of_nat 10.

(** [s.split(LF)]: the segments between line feeds, never an empty
    array. *)
Fixpoint split (s : string) : list string :=
  match s with
  | EmptyString => [EmptyString]
  | String c s' =>
      if Ascii.eqb c LF then EmptyString :: split s'
      else match split s' with
           | [] => [String c EmptyString]
           | l :: ls => String c l :: ls
           end
  end.

(** [segments.join(LF)] *)
Fixpoint join (l : list string) : string :=
  match l with
  | [] => EmptyString
  | [x] => x
  | x :: rest => String.append x (String LF (join rest))
  end.

(** WhiteSpace and LineTerminator code units below 256. *)
Definition is_white_space (c : ascii) : bool :=
  match nat_of_ascii c with
  | 9 | 10 | 11 | 12 | 13 | 32 | 160 => true
  | _ => false
  end.

Fixpoint trimStart (s : string) : string :=
  match s with
  | EmptyString => EmptyString
  | String c s' => if is_white_space c then trimStart s' else s
  end.

Fixpoint trimEnd (s : string) : string :=
  match s with
  | EmptyString => EmptyString
  | String c s' =>
      match trimEnd s' with
      | EmptyString =>
          if is_white_space c then EmptyString else String c EmptyString
      | t => String c t
      end
  end.

Definition trim (s : string) : string := trimEnd (trimStart s).

(** ToBoolean on a string: only the empty string is falsy. *)
Definition truthy (s : string) : bool :=
  match s with EmptyString => false | _ => true end.

(** [`${code}`] for [code : number | null] holding an integer. *)
Definition show_code (code : option Z) : string :=
  match code with
  | None => "null"
  | Some z => NilZero.string_of_int (Z.to_int z)
  end.

(** [haystack.includes(needle)] *)
Fixpoint includes (needle haystack : string) : bool :=
  String.prefix needle haystack
  || match haystack with
     | EmptyString => false
     | String _ rest => includes needle rest
     end.
End Text.

(** *** Error objects: codex-sdk/src/errors.ts, and the two kinds the
    codex-cli copy rejects with *)

Module Errors.
(** The object Node passes to the child's ['error'] listener. *)
Record NodeError := mkNodeError { name : string; message : string }.

Inductive JsError :=
| AgentProcessError (message : string) (code : option Z)
| AgentSpawnError (message : string) (cause : NodeError)
| UserAbortError (message : string)
| AbortError (message : string)
| PlainError (message : string).

Definition message_of (e : JsError) : string :=
  match e with
  | AgentProcessError m _ | AgentSpawnError m _ | UserAbortError m
  | AbortError m | PlainError m => m
  end.

(** [Promise<void>]; [resolve] and [reject] act on a pending promise
    only. *)
Inductive Promise :=
| Pending
| Fulfilled
| Rejected (reason : JsError).

Definition resolve (p : Promise) : Promise :=
  match p with Pending => Fulfilled | _ => p end.

Definition reject (reason : JsError) (p : Promise) : Promise :=
  match p with Pending => Rejected reason | _ => p end.
End Errors.

(** *** [run] of codex-sdk/src/sdk.ts (lines 121-226) *)

Module Bridge.
Import Text Errors.
Section Defs.
Context {T : Type}.
(** [JSON.parse]: [None] stands for the [SyntaxError] it throws. *)
Variable JSON_parse : string -> option T.

Local Abbreviation Queue := (AsyncQueue.State T JsError).
Local Abbreviation Obs := (AsyncQueue.Obs T JsError).

(** Where the body of [run] itself is suspended: inside
    [for await (const msg of queue)], at [await forward], or finished. *)
Inductive RunGen :=
| Iterating
| AwaitForward
| Finished.

(** The variables of one call of [run]:
    - [buffer]: [let buffer] of the stdout listener;
    - [queue]: [const queue = new AsyncQueue()];
    - [aborted]: [abortController.signal.aborted];
    - [closePromise], [forward]: the two promises of that name
      ([forward] is the promise [.catch(...)] returns);
    - [rgen], [delivered]: the generator [run] returns and what its
      consumer has observed so far. *)
Record State := mkState {
  buffer : string;
  queue : Queue;
  aborted : bool;
  closePromise : Promise;
  forward : Promise;
  rgen : RunGen;
  delivered : list Obs;
}.

Definition set_buffer (s : string) (b : State) : State :=
  mkState s (queue b) (aborted b) (closePromise b) (forward b) (rgen b)
    (delivered b).
Definition set_queue (qu : Queue) (b : State) : State :=
  mkState (buffer b) qu (aborted b) (closePromise b) (forward b) (rgen b)
    (delivered b).
Definition set_aborted (a : bool) (b : State) : State :=
  mkState (buffer b) (queue b) a (closePromise b) (forward b) (rgen b)
    (delivered b).
Definition set_closePromise (p : Promise) (b : State) : State :=
  mkState (buffer b) (queue b) (aborted b) p (forward b) (rgen b)
    (delivered b).
Definition set_forward (p : Promise) (b : State) : State :=
  mkState (buffer b) (queue b) (aborted b) (closePromise b) p (rgen b)
    (delivered b).
Definition set_rgen (g : RunGen) (b : State) : State :=
  mkState (buffer b) (queue b) (aborted b) (closePromise b) (forward b) g
    (delivered b).
Definition emit (o : Obs) (b : State) : State :=
  mkState (buffer b) (queue b) (aborted b) (closePromise b) (forward b)
    (rgen b) (delivered b ++ [o]).

(** The body of [for (const line of lines)] (lines 140-149). *)
Definition on_line (qu : Queue) (line : string) : Queue :=
  if truthy (trim line) then
    match JSON_parse line with
    | Some obj => AsyncQueue.push obj qu
    | None => qu
    end
  else qu.

(** [child.stdout.on("data", ...)] (lines 135-151);
    [last lines EmptyString] is [lines.pop() || ""]. *)
Definition on_stdout_data (data : string) (b : State) : State :=
  let buffer1 := String.append (buffer b) data in
  let lines := split buffer1 in
  let buffer2 := List.last lines EmptyString in
  let lines' := removelast lines in
  set_queue (foldl on_line (queue b) lines') (set_buffer buffer2 b).

(** [cleanup] (lines 194-205). *)
Definition cleanup (b : State) : State :=
  if truthy (trim (buffer b)) then
    match JSON_parse (buffer b) with
    | Some obj => set_queue (AsyncQueue.push obj (queue b)) b
    | None => b
    end
  else b.

Definition signal_is (signal : option string) (s : string) : bool :=
  match signal with
  | Some x => String.eqb x s
  | None => false
  end.

(** What the ['close'] listener does to [closePromise] after [cleanup]
    (lines 156-174). *)
Definition close_settle (is_aborted : bool) (code : option Z)
    (signal : option string) (p : Promise) : Promise :=
  if signal_is signal "SIGTERM" || signal_is signal "SIGKILL" then
    if is_aborted then reject (UserAbortError "Codex was aborted by user") p
    else
      reject
        (AgentProcessError
           (String.append "Codex was terminated with signal "
              (default EmptyString signal))
           code) p
  else
    match code with
    | Some 0%Z => resolve p
    | _ =>
        reject
          (AgentProcessError
             (String.append "Codex exited with code " (show_code code))
             code) p
    end.

(** What the ['error'] listener does to [closePromise] after [cleanup]
    (lines 179-190). *)
Definition error_settle (is_aborted : bool) (error : NodeError)
    (p : Promise) : Promise :=
  if String.eqb (name error) "AbortError" then
    if is_aborted then reject (UserAbortError "Codex was aborted by user") p
    else reject (UserAbortError "Codex was aborted") p
  else
    reject
      (AgentSpawnError
         (String.append "failed to run Codex: " (message error)) error) p.

Definition on_close (code : option Z) (signal : option string) (b : State)
  : State :=
  let b := cleanup b in
  set_closePromise (close_settle (aborted b) code signal (closePromise b)) b.

Definition on_error (error : NodeError) (b : State) : State :=
  let b := cleanup b in
  set_closePromise (error_settle (aborted b) error (closePromise b)) b.

(** The continuation of [forward] (lines 210-217): it runs once, after
    [closePromise] has settled; the handler given to [.catch] returns
    normally, so [forward] is fulfilled on both paths. *)
Definition forward_continue (b : State) : State :=
  match forward b, closePromise b with
  | Pending, Fulfilled =>
      set_forward Fulfilled (set_queue (AsyncQueue.end_ (queue b)) b)
  | Pending, Rejected err =>
      set_forward Fulfilled
        (set_queue (AsyncQueue.end_ (AsyncQueue.error err (queue b))) b)
  | _, _ => b
  end.

(** [await forward] (line 222), followed by the return of [run]. *)
Definition await_forward (b : State) : State :=
  match forward b with
  | Pending => b
  | Fulfilled => emit AsyncQueue.Return (set_rgen Finished b)
  | Rejected err => emit (AsyncQueue.Throw err) (set_rgen Finished b)
  end.

(** One resumption of the generator [run] returns (lines 219-222). *)
Definition next (b : State) : State :=
  match rgen b with
  | Iterating =>
      let '(qu, o) := AsyncQueue.iterator (queue b) in
      let b := set_queue qu b in
      match o with
      | None => b
      | Some (AsyncQueue.Yield msg) => emit (AsyncQueue.Yield msg) b
      | Some (AsyncQueue.Throw err) =>
          emit (AsyncQueue.Throw err) (set_rgen Finished b)
      | Some AsyncQueue.Return => await_forward (set_rgen AwaitForward b)
      end
  | AwaitForward => await_forward b
  | Finished => b
  end.

Definition init : State :=
  mkState EmptyString AsyncQueue.init false Pending Pending Iterating [].

(** What the event loop can run next. *)
Inductive Event :=
| EvAbort
| EvData (data : string)
| EvClose (code : option Z) (signal : option string)
| EvError (error : NodeError)
| EvForward
| EvNext.

Definition handle (b : State) (ev : Event) : State :=
  match ev with
  | EvAbort => set_aborted true b
  | EvData data => on_stdout_data data b
  | EvClose code signal => on_close code signal b
  | EvError error => on_error error b
  | EvForward => forward_continue b
  | EvNext => next b
  end.

Definition exec (evs : list Event) (b : State) : State := foldl handle b evs.
End Defs.
Arguments State : clear implicits.
End Bridge.

(** *** [query] of the codex-cli copy: its two listeners
    (codex-cli/src/README.md, lines 459-480) *)

Module CliBridge.
Import Text Errors.

(** The ['close'] listener receives the exit code only:
    [if (aborted) reject(AbortError); if (code !== 0) reject(Error) else
    resolve()]. *)
Definition close_settle (is_aborted : bool) (code : option Z) (p : Promise)
  : Promise :=
  let p :=
    if is_aborted then reject (AbortError "Codex process aborted by user") p
    else p in
  match code with
  | Some 0%Z => resolve p
  | _ =>
      reject
        (PlainError
           (String.append "Codex process exited with code " (show_code code)))
        p
  end.

Definition error_settle (is_aborted : bool) (error : NodeError) (p : Promise)
  : Promise :=
  if is_aborted then reject (AbortError "Codex process aborted by user") p
  else
    reject
      (PlainError
         (String.append "Codex process exited with error: " (message error)))
      p.
End CliBridge.

(** *** The argument list of [run] (codex-sdk/src/sdk.ts, lines 85-119;
    [query] of the codex-cli copy builds the same list) *)

Module RunArgs.
Import Text.

(** [Options] of types.ts: every field is optional. *)
Record Options := mkOptions {
  config : option string;
  image : option string;
  model : option string;
  sandbox : option string;
  profile : option string;
  fullAuto : option bool;
  dangerouslyBypassApprovalsAndSandbox : option bool;
  cd : option string;
  skipGitRepoCheck : option bool;
  color : option string;
  outputLastMessage : option string;
}.

(** [if (options.f) { args.push(flag, options.f); }] for a string field:
    [undefined] and the empty string are falsy. *)
Definition push_value (flag : string) (field : option string)
    (args : list string) : list string :=
  match field with
  | Some value => if truthy value then args ++ [flag; value] else args
  | None => args
  end.

(** [if (options.f) { args.push(flag); }] for a boolean field. *)
Definition push_flag (flag : string) (field : option bool)
    (args : list string) : list string :=
  match field with
  | Some true => args ++ [flag]
  | _ => args
  end.

Definition build_args (prompt : string) (options : Options) : list string :=
  let args := ["exec"; prompt; "--json"]%string in
  let args := push_value "--config" (config options) args in
  let args := push_value "--image" (image options) args in
  let args := push_value "--cd" (cd options) args in
  let args := push_value "--sandbox" (sandbox options) args in
  let args := push_value "--profile" (profile options) args in
  let args := push_flag "--full-auto" (fullAuto options) args in
  let args :=
    push_flag "--dangerously-bypass-approvals-and-sandbox"
      (dangerouslyBypassApprovalsAndSandbox options) args in
  let args := push_flag "--skip-git-repo-check" (skipGitRepoCheck options) args in
  let args := push_value "--color" (color options) args in
  let args :=
    push_value "--output-last-message" (outputLastMessage options) args in
  push_value "--model" (model options) args.

(** [options = {}] *)
Definition no_options : Options :=
  mkOptions None None None None None None None None None None None.
End RunArgs.

(** *** Locating the bundled binary: [resolveCodexBinary] of
    codex-cli/src/utils.ts (lines 5-60) and of the codex-cli copy of the
    bridge (codex-cli/src/README.md, lines 344-364) *)

Module Platform.

(** A call that returns a value or throws [new Error(message)]. *)
Inductive Outcome (A : Type) :=
| Returns (value : A)
| Throws (message : string).
Arguments Returns {A} value.
Arguments Throws {A} message.

(** The nested [switch] of utils.ts on [process.platform] and
    [process.arch]; [None] is [targetTriple = null]. *)
Definition targetTriple (platform arch : string) : option string :=
  if String.eqb platform "linux" || String.eqb platform "android" then
    if String.eqb arch "x64" then Some "x86_64-unknown-linux-musl"%string
    else if String.eqb arch "arm64" then
      Some "aarch64-unknown-linux-musl"%string
    else None
  else if String.eqb platform "darwin" then
    if String.eqb arch "x64" then Some "x86_64-apple-darwin"%string
    else if String.eqb arch "arm64" then Some "aarch64-apple-darwin"%string
    else None
  else if String.eqb platform "win32" then
    if String.eqb arch "x64" then Some "x86_64-pc-windows-msvc.exe"%string
    else None
  else None.

(** The [if]/[else if] chain of the codex-cli copy. *)
Definition triple (platform arch : string) : option string :=
  if String.eqb platform "darwin" then
    Some (if String.eqb arch "arm64" then "aarch64-apple-darwin"
          else "x86_64-apple-darwin")%string
  else if String.eqb platform "linux" || String.eqb platform "android" then
    Some (if String.eqb arch "arm64" then "aarch64-unknown-linux-musl"
          else "x86_64-unknown-linux-musl")%string
  else if String.eqb platform "win32" then
    Some "x86_64-pc-windows-msvc.exe"%string
  else None.

Section Resolve.
(** [path.join] of Node and [fs.existsSync] on the file system at hand. *)
Variable path_join : list string -> string.
Variable existsSync : string -> bool.

Definition binary_path (dirname target : string) : string :=
  path_join [dirname; ".."; "bin"; String.append "codex-" target]%string.

(** utils.ts *)
Definition resolveCodexBinary (dirname platform arch : string)
  : Outcome string :=
  match targetTriple platform arch with
  | None =>
      Throws
        (String.append "Unsupported platform: "
           (String.append platform
              (String.append " (" (String.append arch ")"))))
  | Some target => Returns (binary_path dirname target)
  end.

(** The codex-cli copy of the bridge: it falls back to the [codex] found
    on PATH. *)
Definition resolveCodexBinary_or_PATH (dirname platform arch : string)
  : string :=
  match triple platform arch with
  | Some target =>
      let bin := binary_path dirname target in
      if existsSync bin then bin else "codex"%string
  | None => "codex"%string
  end.
End Resolve.

(** The platform and architecture pairs utils.ts has a [case] for. *)
Definition supported : list (string * string) :=
  [("linux", "x64"); ("linux", "arm64"); ("android", "x64");
   ("android", "arm64"); ("darwin", "x64"); ("darwin", "arm64");
   ("win32", "x64")]%string.
End Platform.

(** *** The stdin-to-stdout JSON normaliser ([parseStdout], file
    src/unnamed/part_000) *)

Module ParseStdout.
Import Text.
Section Defs.
Context {T : Type}.
Variable JSON_parse : string -> option T.

(** What [process.stdin] does: it delivers chunks and then ends, or it
    emits ['error'] after some chunks. *)
Inductive Stdin :=
| Ends (chunks : list string)
| Fails (chunks : list string).

(** What the run leaves behind: the text written to [/dev/stdout], if
    any, and [process.exitCode] ([None] while it is not assigned). *)
Record Result := mkResult {
  written : option string;
  exitCode : option nat;
}.

(** [data += chunk] over the chunks. *)
Definition read_all (chunks : list string) : string :=
  foldl String.append EmptyString chunks.

(** [parseStdout().catch(...)]; [write_ok] tells whether [fs.writeFile]
    succeeds. *)
Definition parseStdout (stdin : Stdin) (write_ok : bool) : Result :=
  match stdin with
  | Fails _ => mkResult None (Some 1)
  | Ends chunks =>
      let input := trim (read_all chunks) in
      if truthy input then
        match JSON_parse input with
        | None => mkResult None (Some 1)
        | Some _ =>
            if write_ok then
              mkResult
                (Some (String.append input (String LF EmptyString))) None
            else mkResult None (Some 1)
        end
      else mkResult None (Some 1)
  end.
End Defs.
End ParseStdout.

(** ** Part II.  Vocabulary of the statements *)

Module QueueSpec.
Import AsyncQueue.
Section Defs.
Context {T E : Type}.

Definition is_terminal_slot (s : Slot T E) : bool :=
  match s with Item _ => false | _ => true end.

Definition is_terminal (o : Obs T E) : bool :=
  match o with Yield _ => false | _ => true end.

(** What the iterator will observe from the buffered slots: it stops at
    the first error or [DONE]. *)
Fixpoint slots_obs (l : list (Slot T E)) : list (Obs T E) :=
  match l with
  | [] => []
  | Item value :: rest => Yield value :: slots_obs rest
  | Failure err :: _ => [Throw err]
  | DONE :: _ => [Return]
  end.

(** What the consumer is still going to observe if the producer makes no
    further call. *)
Definition future (st : State T E) : list (Obs T E) :=
  match gen st with
  | Completed => []
  | Resumed IRDone => [Return]
  | Resumed (IRValue value) => Yield value :: slots_obs (q st)
  | LoopHead | Awaiting _ => slots_obs (q st)
  end.

(** A terminal call ([error] or [end]) has reached the queue. *)
Definition closed (st : State T E) : bool :=
  match gen st with
  | Completed | Resumed IRDone => true
  | _ => existsb is_terminal_slot (q st)
  end.

(** The stored resolver and the parked generator agree. *)
Definition wf (st : State T E) : Prop :=
  match pending st with
  | Some p => q st = [] /\ gen st = Awaiting p
  | None => forall p, gen st <> Awaiting p
  end.

(** The values of the observations [Yield]. *)
Fixpoint yields (l : list (Obs T E)) : list T :=
  match l with
  | [] => []
  | Yield value :: rest => value :: yields rest
  | _ :: rest => yields rest
  end.

(** The producer's calls of a schedule, pulls removed. *)
Fixpoint producer_calls (ops : list (Op T E)) : list (Op T E) :=
  match ops with
  | [] => []
  | OPull :: rest => producer_calls rest
  | op :: rest => op :: producer_calls rest
  end.

(** The values pushed before the first call of [error] or [end]. *)
Fixpoint accepted (ops : list (Op T E)) : list T :=
  match ops with
  | [] => []
  | OPush value :: rest => value :: accepted rest
  | OPull :: rest => accepted rest
  | (OError _ | OEnd) :: _ => []
  end.

(** What a producer call made in state [st] adds to the observations to
    come, provided no terminal call was made before. *)
Definition announces (st : State T E) (op : Op T E) : list (Obs T E) :=
  match op with
  | OPush value => [Yield value]
  | OError err =>
      match pending st with
      | Some _ => [Return]
      | None => [Throw err]
      end
  | OEnd => [Return]
  | OPull => []
  end.

Definition is_terminal_call (op : Op T E) : bool :=
  match op with
  | OError _ | OEnd => true
  | _ => false
  end.

(** [k] consecutive pulls. *)
Definition pulls (k : nat) : list (Op T E) := repeat OPull k.
End Defs.
End QueueSpec.

(** The two queue classes in corresponding states. *)
Module QueueSim.
Import AsyncQueue CliAsyncQueue.
Section Defs.
Context {T E : Type}.

Definition gen_sim (g : Gen T) (c : CGen T) : Prop :=
  match g, c with
  | LoopHead, CLoopHead => True
  | Awaiting p, CAwaiting p' => p = p'
  | Resumed r, CResumed r' => r = r'
  | Completed, CCompleted => True
  | _, _ => False
  end.

Definition sim (st : State T E) (c : CState T E) : Prop :=
  q st = cq c /\ pending st = cpending c /\ gen_sim (gen st) (cgen c)
  /\ promises st = cpromises c /\ immediates st = cimmediates c.
End Defs.
End QueueSim.

Module BridgeSpec.
Import Text Errors Bridge.
Section Defs.
Context {T : Type}.
Variable JSON_parse : string -> option T.

(** The chunks the stdout listener received. *)
Fixpoint chunks (evs : list Event) : list string :=
  match evs with
  | [] => []
  | EvData data :: rest => data :: chunks rest
  | _ :: rest => chunks rest
  end.

(** The text of a list of chunks. *)
Definition text_of (cs : list string) : string :=
  foldr String.append EmptyString cs.

(** The complete lines of a text and its unterminated trailing
    fragment. *)
Definition complete_lines (s : string) : list string := removelast (split s).
Definition fragment (s : string) : string := List.last (split s) EmptyString.

(** The parse attempt the stdout listener makes for one line. *)
Definition parse_line (line : string) : option T :=
  if truthy (trim line) then JSON_parse line else None.

(** What holds of the variables of [run] after any sequence of events:
    the queue is well formed; until [forward] has run no terminal call
    has reached the queue and [run] is still iterating it; [forward]
    waits for [closePromise]. *)
Definition consistent (b : State T) : Prop :=
  QueueSpec.wf (queue b)
  /\ (forward b = Pending ->
      QueueSpec.closed (queue b) = false /\ rgen b = Iterating)
  /\ (closePromise b = Pending -> forward b = Pending)
  /\ (forall err, forward b <> Rejected err).

(** The process is alive: neither ['close'] nor ['error'] has fired. *)
Definition alive (ev : Event) : bool :=
  match ev with
  | EvClose _ _ | EvError _ => false
  | _ => true
  end.

(** What [cleanup] hands to the queue for a trailing fragment. *)
Definition flushed (fragment : string) : list (AsyncQueue.Obs T JsError) :=
  if truthy (trim fragment) then
    match JSON_parse fragment with
    | Some obj => [AsyncQueue.Yield obj]
    | None => []
    end
  else [].

(** [k] consecutive resumptions of the consumer. *)
Definition nexts (k : nat) : list Event := repeat EvNext k.

(** The listener of a termination event. *)
Definition is_termination (ev : Event) : bool :=
  match ev with
  | EvClose _ _ | EvError _ => true
  | _ => false
  end.
End Defs.

(** A line of text: [s] followed by a line feed. *)
Definition line (s : string) : string :=
  String.append s (String LF EmptyString).

(** A stand-in for [JSON.parse] to run the bridge on: a line is accepted
    when it is not blank and starts with an opening brace, and parses to
    itself. *)
Definition toy_parse (s : string) : option string :=
  if truthy (trim s) then
    if String.prefix "{" s then Some s else None
  else None.
End BridgeSpec.

(** Further vocabulary: failures, well-ended observation lists, the
    contributions of the options to the argument list. *)
Module MoreSpec.
Import AsyncQueue QueueSpec.
Section Queue.
Context {T E : Type}.

(** The number of observations [Throw]. *)
Fixpoint throws (l : list (Obs T E)) : nat :=
  match l with
  | [] => 0
  | Throw _ :: rest => S (throws rest)
  | _ :: rest => throws rest
  end.

(** Only [Yield]s. *)
Definition all_yields (l : list (Obs T E)) : bool :=
  forallb (fun o => negb (is_terminal o)) l.

(** [Yield]s, then at most one observation, which may be terminal. *)
Fixpoint yields_then_end (l : list (Obs T E)) : bool :=
  match l with
  | [] => true
  | [_] => true
  | Yield _ :: rest => yields_then_end rest
  | _ :: _ => false
  end.

(** What every schedule keeps of a queue [st] and of the observations
    [out] made on it: while no terminal call was made nothing has failed
    on either channel, at most one failure is ever recorded, on one
    channel, and the iteration has observed a terminal observation
    exactly when the generator has completed. *)
Definition sound (st : State T E) (out : list (Obs T E)) : Prop :=
  wf st
  /\ (closed st = false ->
      all_yields (out ++ future st) = true /\ immediates st = [])
  /\ throws (out ++ future st) + length (immediates st) <= 1
  /\ match gen st with
     | Completed => yields_then_end out = true
     | _ => all_yields out = true
     end.
End Queue.

Section Bridge.
Import Errors Bridge.
Context {T : Type}.

(** The observations [run] has made on its queue: what it delivered,
    and the end of the sequence it has seen while it awaits [forward]. *)
Definition queue_out (b : Bridge.State T) : list (Obs T JsError) :=
  delivered b
  ++ match rgen b with
     | AwaitForward => [Return]
     | _ => []
     end.

(** What every sequence of events keeps of the variables of [run]. *)
Definition steady (b : Bridge.State T) : Prop :=
  BridgeSpec.consistent b
  /\ sound (queue b) (queue_out b)
  /\ (rgen b <> Iterating -> gen (queue b) = Completed).

(** A consumer is parked on the queue of [run]. *)
Definition parked (b : Bridge.State T) : bool :=
  match pending (queue b) with
  | Some _ => true
  | None => false
  end.

(** How a settled [closePromise] ends the iteration when [forward]
    continues, and what then goes to [setImmediate]. *)
Definition verdict (p : Promise) (is_parked : bool) : Obs T JsError :=
  match p with
  | Rejected err => if is_parked then Return else Throw err
  | _ => Return
  end.

Definition diverted (p : Promise) (is_parked : bool) : list JsError :=
  match p with
  | Rejected err => if is_parked then [err] else []
  | _ => []
  end.

(** How the listener of a termination event settles a pending
    [closePromise]. *)
Definition classify (is_aborted : bool) (ev : Event) : Promise :=
  match ev with
  | EvClose code signal => close_settle is_aborted code signal Pending
  | EvError error => error_settle is_aborted error Pending
  | _ => Pending
  end.
End Bridge.

(** The text holds a line feed. *)
Fixpoint has_LF (s : string) : bool :=
  match s with
  | EmptyString => false
  | String c rest => Ascii.eqb c Text.LF || has_LF rest
  end.

(** What one option contributes to the argument list. *)
Definition value_args (flag : string) (field : option string) : list string :=
  match field with
  | Some value => if Text.truthy value then [flag; value] else []
  | None => []
  end.

Definition flag_args (flag : string) (field : option bool) : list string :=
  match field with
  | Some true => [flag]
  | _ => []
  end.

(** The options that take a value, with their flags. *)
Definition value_options : list (string * (RunArgs.Options -> option string)) :=
  [("--config", RunArgs.config); ("--image", RunArgs.image);
   ("--cd", RunArgs.cd); ("--sandbox", RunArgs.sandbox);
   ("--profile", RunArgs.profile); ("--color", RunArgs.color);
   ("--output-last-message", RunArgs.outputLastMessage);
   ("--model", RunArgs.model)]%string.

(** The switches, with their flags. *)
Definition switch_options : list (string * (RunArgs.Options -> option bool)) :=
  [("--full-auto", RunArgs.fullAuto);
   ("--dangerously-bypass-approvals-and-sandbox",
    RunArgs.dangerouslyBypassApprovalsAndSandbox);
   ("--skip-git-repo-check", RunArgs.skipGitRepoCheck)]%string.

(** Every option is falsy: absent, the empty string, or [false]. *)
Definition all_falsy (o : RunArgs.Options) : bool :=
  forallb (fun fg => match snd fg o with
                     | Some value => negb (Text.truthy value)
                     | None => true
                     end) value_options
  && forallb (fun fg => negb (default false (snd fg o))) switch_options.
End MoreSpec.

(** ** Part III.  Theorems *)

(** *** The event queue *)

Module QueueFacts.
Import AsyncQueue QueueSpec.
Section Facts.
Context {T E : Type}.
Implicit Types (st : State T E) (out : list (Obs T E)) (ops : list (Op T E)).

Local Ltac unfold_queue :=
  unfold wf, future, closed, push, error, end_, iterator, resolve,
    setImmediate_throw, set_pending, set_gen, set_q in *; simpl in *.

Lemma slots_obs_snoc (l : list (Slot T E)) (s : Slot T E) :
  slots_obs (l ++ [s])
  = slots_obs l ++ (if existsb is_terminal_slot l then [] else slots_obs [s]).
Proof.
  induction l as [|[v|e|] l IH]; simpl; try done.
  by rewrite IH.
Qed.

Lemma existsb_terminal_snoc (l : list (Slot T E)) (s : Slot T E) :
  existsb is_terminal_slot (l ++ [s])
  = existsb is_terminal_slot l || is_terminal_slot s.
Proof. rewrite existsb_app. simpl. by rewrite orb_false_r. Qed.

(** A pull hands over the head of [future], and nothing else changes. *)
Lemma iterator_future st :
  wf st ->
  let '(st', o) := iterator st in
  wf st' /\ option_list o ++ future st' = future st
  /\ closed st' = closed st /\ immediates st' = immediates st
  /\ (o = None -> future st = []).
Proof.
  destruct st as [l pd g n im]. unfold_queue.
  destruct g as [|p|[v|]|]; simpl.
  - destruct l as [|[v|e|] l]; simpl; destruct pd;
      intuition (done || congruence).
  - destruct pd as [p'|]; [intros [-> ?]|intros H; by destruct (H p)].
    simpl. intuition (done || congruence).
  - destruct pd; intuition (done || congruence).
  - destruct pd; intuition (done || congruence).
  - destruct pd; intuition (done || congruence).
Qed.

Lemma push_future st (v : T) :
  wf st ->
  wf (push v st)
  /\ future (push v st) = future st ++ (if closed st then [] else [Yield v])
  /\ closed (push v st) = closed st
  /\ immediates (push v st) = immediates st.
Proof.
  destruct st as [l pd g n im]. unfold_queue.
  destruct pd as [p|]; simpl.
  - intros [-> ->]. simpl. rewrite decide_True by done. simpl.
    split_and!; done || congruence.
  - intros Hg. rewrite existsb_terminal_snoc, orb_false_r.
    destruct g as [|p|[v'|]|]; simpl; try rewrite slots_obs_snoc;
      try destruct (existsb is_terminal_slot l); intuition (done || congruence).
Qed.

Lemma end_future st :
  wf st ->
  wf (end_ st)
  /\ future (end_ st) = future st ++ (if closed st then [] else [Return])
  /\ closed (end_ st) = true
  /\ immediates (end_ st) = immediates st.
Proof.
  destruct st as [l pd g n im]. unfold_queue.
  destruct pd as [p|]; simpl.
  - intros [-> ->]. simpl. rewrite decide_True by done. simpl.
    split_and!; done || congruence.
  - intros Hg. rewrite existsb_terminal_snoc, orb_true_r.
    destruct g as [|p|[v'|]|]; simpl; try rewrite slots_obs_snoc;
      try destruct (existsb is_terminal_slot l); intuition (done || congruence).
Qed.

(** [error] reaches the iteration only when no consumer is parked: a
    parked consumer is told [done] and the error goes to [setImmediate]. *)
Lemma error_future st (e : E) :
  wf st ->
  wf (error e st)
  /\ future (error e st)
     = future st
       ++ (if closed st then []
           else match pending st with
                | Some _ => [Return]
                | None => [Throw e]
                end)
  /\ closed (error e st) = true
  /\ immediates (error e st)
     = immediates st ++ match pending st with Some _ => [e] | None => [] end.
Proof.
  destruct st as [l pd g n im]. unfold_queue.
  destruct pd as [p|]; simpl.
  - intros [-> ->]. simpl. rewrite decide_True by done. simpl.
    split_and!; done || congruence.
  - intros Hg. rewrite existsb_terminal_snoc, orb_true_r, app_nil_r.
    destruct g as [|p|[v'|]|]; simpl; try rewrite slots_obs_snoc;
      try destruct (existsb is_terminal_slot l); intuition (done || congruence).
Qed.

Lemma wf_init : wf (@init T E).
Proof. by intros p. Qed.

Lemma closed_no_pending st : wf st -> closed st = true -> pending st = None.
Proof.
  destruct st as [l pd g n im]. unfold_queue.
  destruct pd as [p|]; [|done]. by intros [-> ->].
Qed.

(** One transition of a schedule, on the observations made and to come
    and on the side channel. *)
Lemma step_total st out (op : Op T E) :
  wf st ->
  let c' := step (st, out) op in
  wf c'.1
  /\ c'.2 ++ future c'.1
     = (out ++ future st) ++ (if closed st then [] else announces st op)
  /\ closed c'.1 = closed st || is_terminal_call op
  /\ immediates c'.1
     = immediates st
       ++ match op, pending st with
          | OError err, Some _ => [err]
          | _, _ => []
          end.
Proof.
  intros Hwf. destruct op as [v|e| |]; simpl.
  - destruct (push_future st v Hwf) as (?&->&->&->).
    by rewrite orb_false_r, app_assoc, app_nil_r.
  - destruct (error_future st e Hwf) as (?&->&->&->).
    by rewrite orb_true_r, app_assoc.
  - destruct (end_future st Hwf) as (?&->&->&->).
    by rewrite orb_true_r, app_assoc, app_nil_r.
  - pose proof (iterator_future st Hwf) as H.
    destruct (iterator st) as [st' o]. simpl. destruct H as (?&<-&->&->&_).
    rewrite orb_false_r, app_assoc, !app_nil_r.
    by destruct (closed st); rewrite app_nil_r.
Qed.

Lemma step_total_quiet st out (op : Op T E) :
  wf st ->
  (closed st = true \/ forall err, op <> OError err) ->
  immediates (step (st, out) op).1 = immediates st.
Proof.
  intros Hwf Hq. destruct (step_total st out op Hwf) as (_&_&_&->).
  destruct op as [v|e| |]; try by rewrite app_nil_r.
  destruct Hq as [Hc|Hne]; [|by destruct (Hne e)].
  by rewrite (closed_no_pending st Hwf Hc), app_nil_r.
Qed.

Lemma yields_app (l1 l2 : list (Obs T E)) :
  yields (l1 ++ l2) = yields l1 ++ yields l2.
Proof. induction l1 as [|[v|e|] l1 IH]; simpl; by rewrite ?IH. Qed.

(** Pulls deliver [future] from its head; [k] of them deliver all of it
    when [k] is at least its length. *)
Lemma pulls_drain k st out :
  wf st -> length (future st) <= k ->
  let c' := exec (pulls k) (st, out) in
  wf c'.1 /\ c'.2 = out ++ future st /\ future c'.1 = []
  /\ closed c'.1 = closed st /\ immediates c'.1 = immediates st.
Proof.
  unfold pulls.
  revert st out. induction k as [|k IH]; intros st out Hwf Hlen; simpl.
  - destruct (future st); simpl in *; [|lia]. by rewrite app_nil_r.
  - pose proof (iterator_future st Hwf) as H.
    destruct (iterator st) as [st' o]. destruct H as (Hwf'&Hf&Hc&Hi&Hn).
    simpl. destruct (IH st' (out ++ option_list o) Hwf') as (?&->&?&->&->).
    + destruct o as [o|]; simpl in *.
      * rewrite <- Hf in Hlen. simpl in Hlen. lia.
      * rewrite Hf, Hn by done. simpl. lia.
    + rewrite <- Hf, app_assoc. done.
Qed.

(** After a terminal call nothing the producer does reaches the
    consumer. *)
Lemma exec_closed ops st out :
  wf st -> closed st = true ->
  let c' := exec ops (st, out) in
  wf c'.1 /\ c'.2 ++ future c'.1 = out ++ future st
  /\ closed c'.1 = true /\ immediates c'.1 = immediates st.
Proof.
  revert st out. induction ops as [|op ops IH]; intros st out Hwf Hc; simpl.
  - done.
  - pose proof (step_total st out op Hwf) as H. simpl in H.
    pose proof (step_total_quiet st out op Hwf (or_introl Hc)) as Hi.
    destruct (step (st, out) op) as [st' out']. simpl in H, Hi.
    rewrite Hc in H. destruct H as (Hwf'&Hf&Hc'&_).
    destruct (IH st' out' Hwf' Hc') as (?&->&?&->).
    by rewrite Hf, app_nil_r, Hi.
Qed.

(** Pulls alone change neither the observations made and to come nor
    the side channel. *)
Lemma exec_pulls_only ops st out :
  wf st -> producer_calls ops = [] ->
  let c' := exec ops (st, out) in
  wf c'.1 /\ c'.2 ++ future c'.1 = out ++ future st
  /\ closed c'.1 = closed st /\ immediates c'.1 = immediates st.
Proof.
  revert st out. induction ops as [|op ops IH]; intros st out Hwf Hp; simpl.
  - done.
  - destruct op; simpl in Hp; try done.
    pose proof (step_total st out OPull Hwf) as H.
    destruct (step (st, out) OPull) as [st' out']. simpl in H.
    destruct H as (Hwf'&Hf&Hc'&Hi).
    destruct (IH st' out' Hwf' Hp) as (?&->&->&->).
    rewrite Hf, Hc', Hi, orb_false_r, app_nil_r.
    by destruct (closed st); rewrite app_nil_r.
Qed.

(** Pushes followed by [end]: every pushed value, in order, and then the
    normal completion, however pulls are interleaved. *)
Lemma exec_pushes_end ops (ps : list T) st out :
  wf st -> closed st = false ->
  producer_calls ops = map OPush ps ++ [OEnd] ->
  let c' := exec ops (st, out) in
  wf c'.1
  /\ c'.2 ++ future c'.1 = out ++ future st ++ map Yield ps ++ [Return]
  /\ immediates c'.1 = immediates st.
Proof.
  revert ps st out.
  induction ops as [|op ops IH]; intros ps st out Hwf Hc Hp; simpl.
  - by destruct ps.
  - pose proof (step_total st out op Hwf) as H.
    destruct (step (st, out) op) as [st' out']. simpl in H.
    rewrite Hc in H. destruct H as (Hwf'&Hf&Hc'&Hi).
    destruct op as [v|e| |]; simpl in *; try rewrite app_nil_r in Hi.
    + destruct ps as [|p ps]; simplify_eq/=.
      destruct (IH ps st' out' Hwf' Hc' ltac:(done)) as (?&->&->).
      rewrite app_assoc, Hf, Hi. by rewrite <- !app_assoc.
    + destruct ps; simplify_eq/=.
    + destruct ps as [|p ps]; simplify_eq/=.
      destruct (exec_pulls_only ops st' out' Hwf' ltac:(done)) as (?&->&?&->).
      rewrite Hf, Hi. by rewrite <- !app_assoc.
    + destruct (IH ps st' out' Hwf' Hc' Hp) as (?&->&->).
      rewrite app_assoc, Hf, Hi, app_nil_r. by rewrite <- !app_assoc.
Qed.

(** The values observed and to come are the values pushed before the
    first terminal call. *)
Lemma exec_yields ops st out :
  wf st ->
  let c' := exec ops (st, out) in
  wf c'.1
  /\ yields (c'.2 ++ future c'.1)
     = yields (out ++ future st) ++ (if closed st then [] else accepted ops).
Proof.
  revert st out. induction ops as [|op ops IH]; intros st out Hwf; simpl.
  - by destruct (closed st); rewrite app_nil_r.
  - pose proof (step_total st out op Hwf) as H.
    destruct (step (st, out) op) as [st' out']. simpl in H.
    destruct H as (Hwf'&Hf&Hc'&_).
    destruct (IH st' out' Hwf') as (?&->). split; [done|].
    rewrite Hf, Hc', yields_app.
    destruct (closed st); simpl; [by rewrite !app_nil_r|].
    destruct op as [v|e| |]; simpl.
    + by rewrite <- app_assoc.
    + destruct (pending st); simpl; by rewrite !app_nil_r.
    + by rewrite !app_nil_r.
    + by rewrite app_nil_r.
Qed.

(** The pull that observes the end of the iteration: a terminal call was
    made, and nothing is observed afterwards. *)
Lemma iterator_terminal st st' (o : Obs T E) :
  iterator st = (st', Some o) -> is_terminal o = true ->
  closed st = true /\ future st' = [].
Proof.
  destruct st as [l pd g n im]. unfold_queue.
  destruct g as [|p|[v|]|]; simpl; try destruct l as [|[v'|e|] l];
    intros; simplify_eq/=; done.
Qed.



Lemma slots_obs_length (l : list (Slot T E)) :
  length (slots_obs l) <= S (length (yields (slots_obs l))).
Proof. induction l as [|[v|e|] l IH]; simpl; lia. Qed.

Lemma future_length st : length (future st) <= S (length (yields (future st))).
Proof.
  unfold future. pose proof (slots_obs_length (q st)).
  destruct (gen st) as [|p|[v|]|]; simpl; lia.
Qed.

Lemma slots_obs_items (xs : list T) :
  slots_obs (map Item xs : list (Slot T E)) = map Yield xs.
Proof. induction xs; simpl; by f_equal. Qed.

Lemma existsb_terminal_items (xs : list T) :
  existsb is_terminal_slot (map Item xs : list (Slot T E)) = false.
Proof. by induction xs. Qed.

(** C3.  Values P1..Pn pushed into a fresh queue and followed by one
    call of [end]: whatever the interleaving of the pushes with the
    consumer's pulls, the consumer receives exactly P1..Pn in push order,
    none dropped or duplicated, and then the iteration returns without
    throwing (nothing reaches the [setImmediate] side channel either). *)
Theorem pushes_then_end_are_delivered (ps : list T) ops k :
  producer_calls ops = map OPush ps ++ [OEnd] ->
  length ps < k ->
  let c := exec (pulls k) (run ops) in
  c.2 = map Yield ps ++ [Return] /\ immediates c.1 = [].
Proof.
  intros Hp Hk. unfold run.
  destruct (exec_pushes_end ops ps init [] wf_init eq_refl Hp) as (Hwf&Hf&Hi).
  destruct (exec ops (init, [])) as [st out]. simpl in *.
  destruct (pulls_drain k st out Hwf) as (_&->&_&_&->).
  - apply (f_equal length) in Hf.
    rewrite !length_app, length_map in Hf. simpl in Hf. lia.
  - by rewrite Hf, Hi.
Qed.

(** C8.  After any interleaving of [push], [error], [end] and pulls of
    the single consumer, the [pending] field (the only place a resolver is
    kept) is set only while the buffer [q] is empty, and then it is the
    resolver of the one promise the generator is parked on; when it is
    unset the generator is not parked on any promise. *)
Theorem pending_only_when_buffer_empty ops :
  let st := (run ops).1 in
  match pending st with
  | Some p => q st = [] /\ gen st = Awaiting p
  | None => forall p, gen st <> Awaiting p
  end.
Proof. by destruct (exec_yields ops init [] wf_init) as [Hwf _]. Qed.

(** C9.  [error] and [end] are terminal: for every schedule the values
    the consumer has received are a prefix of the values pushed before the
    first call of [error] or [end], in push order, and once the consumer
    has pulled often enough they are exactly those values; nothing pushed
    after the first terminal call is ever delivered. *)
Theorem terminal_calls_are_final ops :
  yields (run ops).2 `prefix_of` accepted ops
  /\ yields (exec (pulls (S (length (accepted ops)))) (run ops)).2
     = accepted ops.
Proof.
  unfold run. destruct (exec_yields ops init [] wf_init) as [Hwf Hy].
  destruct (exec ops (init, [])) as [st out]. simpl in Hwf, Hy.
  rewrite yields_app in Hy. split.
  - exists (yields (future st)). simpl. by rewrite Hy.
  - destruct (pulls_drain (S (length (accepted ops))) st out Hwf)
      as (_&->&_).
    + pose proof (future_length st). rewrite <- Hy, length_app. lia.
    + by rewrite yields_app.
Qed.

(** C2, as the code has it.  With only items buffered and no consumer
    parked on the empty queue, [error(e)] followed by [end()] makes the
    consumer receive the buffered items in order and then exactly one
    throw of [e], whatever is pushed or signalled afterwards; [end()]
    followed by [error(e)] makes it receive the buffered items and then
    return normally, and [e] is never thrown. *)
Theorem error_then_end_with_buffered_items
    (xs : list T) (e : E) st rest k :
  q st = map Item xs -> pending st = None -> gen st = LoopHead ->
  length xs < k ->
  let c1 := exec (pulls k) (exec ([OError e; OEnd] ++ rest) (st, [])) in
  let c2 := exec (pulls k) (exec ([OEnd; OError e] ++ rest) (st, [])) in
  (c1.2 = map Yield xs ++ [Throw e] /\ immediates c1.1 = immediates st)
  /\ (c2.2 = map Yield xs ++ [Return] /\ immediates c2.1 = immediates st).
Proof.
  intros Hq Hp Hg Hk.
  assert (Hwf : wf st) by (unfold wf; rewrite Hp, Hg; done).
  assert (Hc : closed st = false)
    by (unfold closed; rewrite Hg, Hq; apply existsb_terminal_items).
  assert (Hf : future st = map Yield xs)
    by (unfold future; rewrite Hg, Hq; apply slots_obs_items).
  split.
  - simpl.
    destruct (error_future st e Hwf) as (Hwf1&Hf1&Hc1&Hi1).
    destruct (end_future _ Hwf1) as (Hwf2&Hf2&Hc2&Hi2).
    rewrite Hc1, app_nil_r in Hf2. rewrite Hc, Hp in Hf1.
    rewrite Hp, app_nil_r in Hi1.
    destruct (exec_closed rest _ [] Hwf2 Hc2) as (Hwf3&Hf3&Hc3&Hi3).
    fold (exec rest (end_ (error e st), [])).
    destruct (exec rest (end_ (error e st), [])) as [st3 out3]. simpl in *.
    rewrite Hf2, Hf1, Hf in Hf3.
    destruct (pulls_drain k st3 out3 Hwf3) as (_&->&_&_&->).
    + apply (f_equal length) in Hf3.
      rewrite !length_app, length_map in Hf3. simpl in Hf3. lia.
    + by rewrite Hf3, Hi3, Hi2, Hi1.
  - simpl.
    destruct (end_future st Hwf) as (Hwf1&Hf1&Hc1&Hi1).
    destruct (error_future _ e Hwf1) as (Hwf2&Hf2&Hc2&Hi2).
    rewrite Hc1, app_nil_r in Hf2. rewrite Hc in Hf1.
    rewrite (closed_no_pending _ Hwf1 Hc1), app_nil_r in Hi2.
    destruct (exec_closed rest _ [] Hwf2 Hc2) as (Hwf3&Hf3&Hc3&Hi3).
    fold (exec rest (error e (end_ st), [])).
    destruct (exec rest (error e (end_ st), [])) as [st3 out3]. simpl in *.
    rewrite Hf2, Hf1, Hf in Hf3.
    destruct (pulls_drain k st3 out3 Hwf3) as (_&->&_&_&->).
    + apply (f_equal length) in Hf3.
      rewrite !length_app, length_map in Hf3. simpl in Hf3. lia.
    + by rewrite Hf3, Hi3, Hi2, Hi1.
Qed.

End Facts.

Lemma pushes_then_end_are_delivered_witness :
  let ops := [OPush 1; OPull; OPull; OPush 2; OPush 3; OPull; OEnd] in
  producer_calls (E:=nat) ops = map OPush [1; 2; 3] ++ [OEnd]
  /\ (exec (pulls 4) (run ops)).2 = [Yield 1; Yield 2; Yield 3; Return].
Proof.
  split; [reflexivity|].
  refine (proj1 (pushes_then_end_are_delivered [1; 2; 3] _ 4 _ _));
    [reflexivity | simpl; lia].
Defined.

Lemma error_then_end_with_buffered_items_witness :
  (exec (pulls 3)
     (exec ([OError 7; OEnd] ++ [OPush 9])
        (mkState [Item 1; Item 2] None LoopHead 0 [], []))).2
  = [Yield 1; Yield 2; Throw 7].
Proof.
  refine (proj1 (proj1
    (error_then_end_with_buffered_items [1; 2] 7
       (mkState [Item 1; Item 2] None LoopHead 0 []) [OPush 9] 3
       _ _ _ _)));
    [reflexivity | reflexivity | reflexivity | simpl; lia].
Defined.

(** [error] with a consumer parked on the empty queue: the pull is told
    [done], the iteration returns, and the error is left to the
    [setImmediate] callback. *)
Example error_with_parked_consumer :
  let c := exec (pulls 2) (run (T:=nat) (E:=nat) [OPull; OError 7; OEnd]) in
  c.2 = [Return] /\ immediates c.1 = [7].
Proof. split; reflexivity. Qed.

(** C2, as the specification states it, fails when [end()] comes first:
    the consumer receives the buffered item and the iteration returns;
    the error is never thrown. *)
Lemma end_then_error_never_throws :
  let out := (exec (pulls 4) (run (T:=nat) (E:=nat)
                [OPush 1; OEnd; OError 7])).2 in
  out = [Yield 1; Return] /\ ~ In (Throw 7) out.
Proof. split; [reflexivity|]. simpl. intuition discriminate. Qed.

End QueueFacts.

(** *** The two copies of the queue *)

Module QueueEquiv.
Import AsyncQueue QueueSim.
Section Facts.
Context {T E : Type}.
Implicit Types (st : State T E) (c : CliAsyncQueue.CState T E).

Local Ltac sim_cases H :=
  destruct H as (Hq & Hp & Hg & Hn & Hi);
  repeat match goal with x : State _ _ |- _ => destruct x end;
  repeat match goal with x : CliAsyncQueue.CState _ _ |- _ => destruct x end;
  simpl in *; subst;
  repeat match goal with
         | x : Gen _ |- _ => destruct x as [|?|[?|]|]
         | x : CliAsyncQueue.CGen _ |- _ => destruct x as [|?|[?|]|]
         end;
  simpl in *; try done; simplify_eq.

Local Ltac sim_method :=
  unfold sim, push, CliAsyncQueue.push, error, CliAsyncQueue.error, end_,
    CliAsyncQueue.end_, resolve, CliAsyncQueue.cresolve; simpl;
  repeat case_match; simpl; try case_decide; done.

Lemma sim_init : sim (@init T E) CliAsyncQueue.init.
Proof. by repeat split. Qed.

Lemma sim_push st c (v : T) :
  sim st c -> sim (push v st) (CliAsyncQueue.push v c).
Proof. intros H. sim_cases H; sim_method. Qed.

Lemma sim_error st c (e : E) :
  sim st c -> sim (error e st) (CliAsyncQueue.error e c).
Proof. intros H. sim_cases H; sim_method. Qed.

Lemma sim_end st c : sim st c -> sim (end_ st) (CliAsyncQueue.end_ c).
Proof. intros H. sim_cases H; sim_method. Qed.

Lemma sim_iterator st c :
  sim st c ->
  sim (iterator st).1 (CliAsyncQueue.iterator c).1
  /\ (iterator st).2 = (CliAsyncQueue.iterator c).2.
Proof.
  intros H. sim_cases H;
    unfold sim, iterator, CliAsyncQueue.iterator; simpl; try done.
  repeat case_match; done.
Qed.

Lemma sim_step st c (out : list (Obs T E)) (op : Op T E) :
  sim st c ->
  sim (step (st, out) op).1 (CliAsyncQueue.step (c, out) op).1
  /\ (step (st, out) op).2 = (CliAsyncQueue.step (c, out) op).2.
Proof.
  intros H. destruct op as [v|e| |]; simpl.
  - split; [by apply sim_push|done].
  - split; [by apply sim_error|done].
  - split; [by apply sim_end|done].
  - destruct (sim_iterator st c H) as [Hs Ho].
    destruct (iterator st) as [st' o], (CliAsyncQueue.iterator c) as [c' o'].
    simpl in *. by subst.
Qed.

Lemma sim_exec ops st c (out : list (Obs T E)) :
  sim st c ->
  sim (exec ops (st, out)).1 (foldl CliAsyncQueue.step (c, out) ops).1
  /\ (exec ops (st, out)).2 = (foldl CliAsyncQueue.step (c, out) ops).2.
Proof.
  revert st c out. induction ops as [|op ops IH]; intros st c out H; simpl.
  - done.
  - destruct (sim_step st c out op H) as [Hs Ho].
    destruct (step (st, out) op) as [st' out'].
    destruct (CliAsyncQueue.step (c, out) op) as [c' out''].
    simpl in *. subst. by apply IH.
Qed.

(** C10.  The queue class of codex-sdk and the queue class of the
    codex-cli copy behave alike: under every schedule of [push], [error],
    [end] and pulls they deliver the same values, throw the same errors
    (from the iteration and through [setImmediate]) and complete at the
    same pull, and they end in corresponding states. *)
Theorem queue_copies_agree (ops : list (Op T E)) :
  (run ops).2 = (CliAsyncQueue.run ops).2
  /\ immediates (run ops).1 = CliAsyncQueue.cimmediates (CliAsyncQueue.run ops).1
  /\ sim (run ops).1 (CliAsyncQueue.run ops).1.
Proof.
  destruct (sim_exec ops init CliAsyncQueue.init [] sim_init) as [Hs Ho].
  split_and!; [done| |done]. by destruct Hs as (_&_&_&_&?).
Qed.

End Facts.
End QueueEquiv.

(** *** Text *)

Module TextFacts.
Import Text.

Lemma append_assoc (a b c : string) :
  String.append (String.append a b) c = String.append a (String.append b c).
Proof. induction a as [|x a IH]; simpl; by rewrite ?IH. Qed.

Lemma append_nil_r (a : string) : String.append a EmptyString = a.
Proof. induction a as [|x a IH]; simpl; by rewrite ?IH. Qed.

Lemma split_nonempty (s : string) : split s <> [].
Proof.
  destruct s as [|c s]; simpl; [done|].
  destruct (Ascii.eqb c LF); [done|]. by destruct (split s).
Qed.

(** Splitting a text that arrives in two parts: the complete lines of the
    first part, then the split of its trailing fragment followed by the
    second part. *)
Lemma split_app (a b : string) :
  split (String.append a b)
  = removelast (split a)
    ++ split (String.append (List.last (split a) EmptyString) b).
Proof.
  induction a as [|c a IH]; [done|].
  pose proof (split_nonempty a) as Hne. simpl.
  destruct (Ascii.eqb c LF) eqn:Hc.
  - rewrite IH. destruct (split a) as [|l ls]; done.
  - rewrite IH. destruct (split a) as [|l [|l2 ls]]; [done| |done].
    simpl. by rewrite Hc.
Qed.

(** Joining the segments gives the text back: splitting loses nothing
    and repeats nothing. *)
Lemma join_split (s : string) : join (split s) = s.
Proof.
  induction s as [|c s IH]; [done|].
  pose proof (split_nonempty s) as Hne. simpl.
  destruct (Ascii.eqb c LF) eqn:Hc.
  - apply Ascii.eqb_eq in Hc as ->.
    destruct (split s) as [|l ls]; [done|]. simpl in *. by rewrite IH.
  - destruct (split s) as [|l [|l2 ls]]; [done| |]; simpl in *; by rewrite IH.
Qed.

Lemma removelast_app_last (l : list string) :
  l <> [] -> removelast l ++ [List.last l EmptyString] = l.
Proof. intros H. symmetry. by apply app_removelast_last. Qed.

End TextFacts.

(** *** The bridge *)

Module BridgeFacts.
Import Text Errors Bridge BridgeSpec QueueSpec QueueFacts TextFacts.
Section Facts.
Context {T : Type}.
Variable JSON_parse : string -> option T.
Implicit Types (b : State T) (qu : AsyncQueue.State T JsError).

Local Abbreviation Yield := (@AsyncQueue.Yield T JsError).
Local Abbreviation Return := (@AsyncQueue.Return T JsError).
Local Abbreviation exec := (Bridge.exec JSON_parse).
Local Abbreviation handle := (Bridge.handle JSON_parse).

Lemma on_line_future qu (line : string) :
  wf qu ->
  let qu' := on_line JSON_parse qu line in
  wf qu'
  /\ future qu'
     = future qu
       ++ (if closed qu then []
           else map Yield (option_list (parse_line JSON_parse line)))
  /\ closed qu' = closed qu
  /\ AsyncQueue.immediates qu' = AsyncQueue.immediates qu.
Proof.
  intros Hwf. unfold on_line, parse_line. simpl.
  destruct (truthy (trim line)); [destruct (JSON_parse line) as [obj|]|];
    simpl; try by (destruct (closed qu); rewrite app_nil_r).
  apply (push_future qu obj Hwf).
Qed.

Lemma foldl_on_line_future (lines : list string) qu :
  wf qu ->
  let qu' := foldl (on_line JSON_parse) qu lines in
  wf qu'
  /\ future qu'
     = future qu
       ++ (if closed qu then []
           else map Yield (omap (parse_line JSON_parse) lines))
  /\ closed qu' = closed qu
  /\ AsyncQueue.immediates qu' = AsyncQueue.immediates qu.
Proof.
  revert qu. induction lines as [|line lines IH]; intros qu Hwf; simpl.
  - by destruct (closed qu); rewrite app_nil_r.
  - destruct (on_line_future qu line Hwf) as (Hwf'&Hf&Hc&Hi). simpl in *.
    destruct (IH _ Hwf') as (?&->&->&->). rewrite Hf, Hc, Hi.
    split_and!; try done. rewrite <- app_assoc. f_equal.
    destruct (closed qu); [done|].
    by destruct (parse_line JSON_parse line).
Qed.

Lemma cleanup_future b :
  wf (queue b) ->
  let b' := cleanup JSON_parse b in
  wf (queue b')
  /\ future (queue b')
     = future (queue b)
       ++ (if closed (queue b) then [] else flushed JSON_parse (buffer b))
  /\ closed (queue b') = closed (queue b)
  /\ AsyncQueue.immediates (queue b') = AsyncQueue.immediates (queue b)
  /\ buffer b' = buffer b /\ aborted b' = aborted b
  /\ closePromise b' = closePromise b /\ forward b' = forward b
  /\ rgen b' = rgen b /\ delivered b' = delivered b.
Proof.
  intros Hwf. unfold cleanup, flushed. simpl.
  destruct (truthy (trim (buffer b)));
    [destruct (JSON_parse (buffer b)) as [obj|]|]; simpl;
    try by (destruct (closed (queue b)); rewrite app_nil_r).
  destruct (push_future (queue b) obj Hwf) as (?&?&?&?). done.
Qed.

(** One resumption of [run] while it iterates the queue. *)
Lemma next_total b :
  wf (queue b) -> rgen b = Iterating ->
  (closed (queue b) = true -> forward b = Fulfilled) ->
  let b' := next b in
  wf (queue b')
  /\ delivered b' ++ future (queue b') = delivered b ++ future (queue b)
  /\ length (future (queue b')) <= length (future (queue b)) - 1
  /\ (rgen b' = Iterating \/ (rgen b' = Finished /\ future (queue b') = []))
  /\ (closed (queue b) = false -> rgen b' = Iterating)
  /\ closed (queue b') = closed (queue b)
  /\ AsyncQueue.immediates (queue b') = AsyncQueue.immediates (queue b)
  /\ buffer b' = buffer b /\ aborted b' = aborted b
  /\ closePromise b' = closePromise b /\ forward b' = forward b.
Proof.
  intros Hwf Hg Hfw. unfold next. rewrite Hg.
  pose proof (iterator_future (queue b) Hwf) as H.
  pose proof (iterator_terminal (queue b)) as Ht.
  destruct (AsyncQueue.iterator (queue b)) as [qu o].
  destruct H as (Hwf'&Hf&Hc&Hi&Hn). rewrite <- Hf.
  destruct o as [[v|e|]|]; simpl in *.
  - rewrite <- app_assoc. split_and!; auto with lia.
  - destruct (Ht qu _ eq_refl eq_refl) as [Hcl Hnil].
    rewrite Hnil, <- app_assoc. simpl.
    split_and!; auto with lia; congruence.
  - destruct (Ht qu _ eq_refl eq_refl) as [Hcl Hnil].
    pose proof (Hfw Hcl) as Hff. unfold await_forward. simpl.
    rewrite Hff. simpl. rewrite !Hnil, app_nil_r. simpl.
    split_and!; auto with lia; congruence.
  - split_and!; auto. rewrite Hf, (Hn eq_refl). simpl. lia.
Qed.

Lemma nexts_finished k b :
  rgen b = Finished -> exec (nexts k) b = b.
Proof.
  intros Hg. induction k as [|k IH]; simpl; [done|].
  unfold next. by rewrite Hg.
Qed.

(** Resumptions of the consumer deliver the observations to come, and
    [k] of them deliver all when [k] is at least their number. *)
Lemma nexts_drain k b :
  wf (queue b) -> rgen b = Iterating ->
  (closed (queue b) = true -> forward b = Fulfilled) ->
  length (future (queue b)) <= k ->
  delivered (exec (nexts k) b) = delivered b ++ future (queue b).
Proof.
  revert b. induction k as [|k IH]; intros b Hwf Hg Hfw Hlen; simpl.
  - destruct (future (queue b)); simpl in *; [|lia]. by rewrite app_nil_r.
  - destruct (next_total b Hwf Hg Hfw)
      as (Hwf'&Hd&Hl&Hr&_&Hc&_&_&_&_&Hfw').
    destruct Hr as [Hr|[Hr Hnil]].
    + fold (nexts k). rewrite IH; try done.
      * rewrite Hc, Hfw'. done.
      * lia.
    + fold (nexts k). rewrite (nexts_finished k _ Hr).
      rewrite <- Hd, Hnil. by rewrite app_nil_r.
Qed.

(** While no terminal call has reached the queue, resumptions of the
    consumer leave [run] iterating and change nothing else. *)
Lemma nexts_open n b :
  wf (queue b) -> rgen b = Iterating -> closed (queue b) = false ->
  let b' := exec (nexts n) b in
  wf (queue b') /\ rgen b' = Iterating /\ closed (queue b') = false
  /\ delivered b' ++ future (queue b') = delivered b ++ future (queue b)
  /\ length (future (queue b')) <= length (future (queue b))
  /\ AsyncQueue.immediates (queue b') = AsyncQueue.immediates (queue b)
  /\ buffer b' = buffer b /\ aborted b' = aborted b
  /\ closePromise b' = closePromise b /\ forward b' = forward b.
Proof.
  revert b. induction n as [|n IH]; intros b Hwf Hg Hc; simpl; [done|].
  destruct (next_total b Hwf Hg) as (Hwf'&Hd&Hl&_&Hr&Hc'&Hi&Hb&Ha&Hp&Hfw).
  { by rewrite Hc. }
  fold (nexts n).
  destruct (IH (next b) Hwf' (Hr Hc)) as (?&?&?&->&?&->&->&->&->&->).
  { by rewrite Hc'. }
  split_and!; try done. lia.
Qed.

Lemma close_settle_settled (a : bool) code signal (p : Promise) :
  close_settle a code signal p <> Pending.
Proof.
  unfold close_settle.
  destruct (signal_is signal "SIGTERM" || signal_is signal "SIGKILL");
    [destruct a|destruct code as [[| |]|]]; by destruct p.
Qed.

Lemma error_settle_settled (a : bool) error (p : Promise) :
  error_settle a error p <> Pending.
Proof.
  unfold error_settle.
  destruct (String.eqb (name error) "AbortError"); [destruct a|]; by destruct p.
Qed.

Lemma consistent_init : consistent (@init T).
Proof. by split_and!. Qed.

Lemma consistent_handle b ev : consistent b -> consistent (handle b ev).
Proof.
  intros (Hwf&Hfw&Hcp&Hrej). unfold consistent.
  destruct ev as [|data|code signal|error| |]; simpl.
  - done.
  - unfold on_stdout_data. simpl.
    destruct (foldl_on_line_future
      (removelast (split (String.append (buffer b) data))) (queue b) Hwf)
      as (?&_&Hc&_).
    split_and!; try done. by rewrite Hc.
  - unfold on_close.
    destruct (cleanup_future b Hwf) as (?&_&Hc&_&_&_&Hp&Hf&Hr&_). simpl.
    split_and!; try done.
    + rewrite Hf, Hc, Hr. done.
    + intros Hs. by apply close_settle_settled in Hs.
    + by rewrite Hf.
  - unfold on_error.
    destruct (cleanup_future b Hwf) as (?&_&Hc&_&_&_&Hp&Hf&Hr&_). simpl.
    split_and!; try done.
    + rewrite Hf, Hc, Hr. done.
    + intros Hs. by apply error_settle_settled in Hs.
    + by rewrite Hf.
  - unfold forward_continue.
    destruct (forward b) eqn:Hf; simpl;
      [|split_and!; intros; rewrite ?Hf in *; auto; congruence..].
    destruct (closePromise b) as [| |err] eqn:Hp; simpl.
    + split_and!; intros; rewrite ?Hf, ?Hp in *; auto.
    + destruct (end_future (queue b) Hwf) as (?&_).
      split_and!; simpl; rewrite ?Hp; done.
    + destruct (error_future (queue b) err Hwf) as (Hwf1&_).
      destruct (end_future _ Hwf1) as (?&_).
      split_and!; simpl; rewrite ?Hp; done.
  - destruct (rgen b) eqn:Hg.
    + destruct (next_total b Hwf Hg) as (?&_&_&_&Hr&Hc&_&_&_&Hp&Hf).
      { intros Hcl.
        destruct (forward b) eqn:Hf; [|done|by destruct (Hrej reason)].
        destruct (Hfw eq_refl) as [Hc _]. congruence. }
      split_and!; try done.
      * rewrite Hf, Hc. intros Hpend. destruct (Hfw Hpend) as [Hop _]. auto.
      * by rewrite Hp, Hf.
      * by rewrite Hf.
    + unfold next, await_forward. rewrite Hg.
      destruct (forward b) eqn:Hf; simpl;
        split_and!; intros; rewrite ?Hf in *; intuition congruence.
    + unfold next. rewrite Hg. split_and!; intuition congruence.
Qed.


Lemma exec_app evs1 evs2 b : exec (evs1 ++ evs2) b = exec evs2 (exec evs1 b).
Proof. apply foldl_app. Qed.

Lemma omap_length {A B} (f : A -> option B) (l : list A) :
  length (omap f l) <= length l.
Proof.
  induction l as [|x l IH]; simpl; [lia|].
  change (list_omap A B f l) with (omap f l). destruct (f x); simpl; lia.
Qed.

Lemma fragment_app (s data : string) :
  fragment (String.append s data)
  = List.last (split (String.append (fragment s) data)) EmptyString.
Proof.
  unfold fragment. rewrite split_app.
  pose proof (split_nonempty
    (String.append (List.last (split s) EmptyString) data)) as Hne.
  destruct (exists_last Hne) as (l&x&->).
  by rewrite app_assoc, !last_last.
Qed.

Lemma complete_lines_app (s data : string) :
  complete_lines (String.append s data)
  = complete_lines s
    ++ removelast (split (String.append (fragment s) data)).
Proof.
  unfold complete_lines, fragment. rewrite split_app.
  apply removelast_app, split_nonempty.
Qed.

(** While the process is alive the stdout listener and the consumer
    keep this relation between the text received so far and the
    variables of [run]. *)
Lemma exec_streaming evs b (s0 : string) :
  consistent b -> closePromise b = Pending ->
  forallb alive evs = true ->
  buffer b = fragment s0 ->
  delivered b ++ future (queue b)
  = map Yield (omap (parse_line JSON_parse) (complete_lines s0)) ->
  let b' := exec evs b in
  let s := String.append s0 (text_of (chunks evs)) in
  consistent b' /\ closePromise b' = Pending
  /\ buffer b' = fragment s
  /\ delivered b' ++ future (queue b')
     = map Yield (omap (parse_line JSON_parse) (complete_lines s))
  /\ AsyncQueue.immediates (queue b') = AsyncQueue.immediates (queue b).
Proof.
  revert b s0.
  induction evs as [|ev evs IH]; intros b s0 Hcs Hcp Hal Hb Hd; simpl.
  { by rewrite append_nil_r. }
  simpl in Hal. apply andb_true_iff in Hal as [Hev Hal].
  pose proof (consistent_handle b ev Hcs) as Hcs'.
  destruct Hcs as (Hwf&Hfw&Hpf&Hrej).
  destruct (Hfw (Hpf Hcp)) as [Hop Hit].
  destruct ev as [|data|code signal|error| |]; simpl in *; try done.
  - by apply (IH (set_aborted true b) s0).
  - destruct (foldl_on_line_future
      (removelast (split (String.append (buffer b) data))) (queue b) Hwf)
      as (_&Hf&_&Hi).
    destruct (IH (on_stdout_data JSON_parse data b) (String.append s0 data))
      as (?&?&?&?&Hi'); try done.
    + simpl. by rewrite Hb, fragment_app.
    + simpl. rewrite Hf, Hop, app_assoc, Hd, complete_lines_app, omap_app,
        map_app, Hb. done.
    + rewrite append_assoc in *. split_and!; try done.
      rewrite Hi'. simpl. done.
  - assert (forward_continue b = b) as ->; [|by apply IH].
    unfold forward_continue. by rewrite (Hpf Hcp), Hcp.
  - destruct (next_total b Hwf Hit) as (_&Hd'&_&_&_&_&Hi&Hb'&_&Hp'&_).
    { by rewrite Hop. }
    destruct (IH (next b) s0) as (?&?&?&?&Hi''); try done; try congruence.
    split_and!; try done. congruence.
Qed.

Lemma omap_parse_line (ls : list string) :
  (forall s, truthy (trim s) = false -> JSON_parse s = None) ->
  omap (parse_line JSON_parse) ls = omap JSON_parse ls.
Proof.
  intros Hblank. induction ls as [|l ls IH]; [done|].
  simpl. unfold parse_line at 1. destruct (truthy (trim l)) eqn:Ht.
  - destruct (JSON_parse l); [f_equal|]; exact IH.
  - rewrite (Hblank l Ht). exact IH.
Qed.

(** C7.  Whatever chunks the stdout listener is fed while the process is
    alive, and however the consumer's pulls fall between them, the events
    it hands to the queue, which the consumer then receives, are exactly
    the successful parses of the complete lines of the concatenated text,
    in order; the listener keeps the unterminated trailing fragment, and
    lines and fragment together are the text, nothing lost or repeated; a
    line that does not parse yields no event and no error, on either
    channel.  ([JSON.parse] throws on blank input.) *)
Theorem framer_yields_parsed_lines (evs : list Event) :
  (forall s, truthy (trim s) = false -> JSON_parse s = None) ->
  forallb alive evs = true ->
  let b := exec evs init in
  let s := text_of (chunks evs) in
  delivered (exec (nexts (length (complete_lines s))) b)
  = map Yield (omap JSON_parse (complete_lines s))
  /\ buffer b = fragment s
  /\ join (complete_lines s ++ [fragment s]) = s
  /\ AsyncQueue.immediates (queue b) = [].
Proof.
  intros Hblank Hal. simpl.
  destruct (exec_streaming evs init EmptyString consistent_init eq_refl Hal
    eq_refl eq_refl) as (Hcs&Hcp&Hb&Hd&Hi). simpl in *.
  assert (Hext : omap (parse_line JSON_parse)
                   (complete_lines (text_of (chunks evs)))
                 = omap JSON_parse (complete_lines (text_of (chunks evs)))).
  { by apply omap_parse_line. }
  rewrite Hext in Hd.
  destruct Hcs as (Hwf&Hfw&Hpf&_). destruct (Hfw (Hpf Hcp)) as [Hop Hit].
  split_and!; try done.
  - rewrite nexts_drain; try done.
    + by rewrite Hop.
    + apply (f_equal length) in Hd.
      rewrite length_app, length_map in Hd.
      pose proof (omap_length JSON_parse
        (complete_lines (text_of (chunks evs)))). lia.
  - unfold complete_lines, fragment.
    rewrite removelast_app_last by apply split_nonempty. apply join_split.
Qed.


End Facts.

Lemma framer_yields_parsed_lines_witness :
  let evs :=
    [EvData (String.append (line "{a:1}") "{"); EvNext;
     EvData (line "b:2}"); EvData (line "NOT-JSON"); EvData "{c"] in
  let b := Bridge.exec toy_parse evs init in
  let s := text_of (chunks evs) in
  delivered (Bridge.exec toy_parse (nexts (length (complete_lines s))) b)
  = map AsyncQueue.Yield (omap toy_parse (complete_lines s))
  /\ buffer b = fragment s
  /\ join (complete_lines s ++ [fragment s]) = s
  /\ AsyncQueue.immediates (queue b) = [].
Proof.
  apply (framer_yields_parsed_lines toy_parse).
  - intros s H. unfold toy_parse. rewrite H. reflexivity.
  - reflexivity.
Defined.


(** The two examples of the specification's section 8 on framing. *)
Example framing_across_chunks :
  delivered
    (Bridge.exec toy_parse
       [EvData (String.append (line "{a:1}") "{"); EvData (line "b:2}");
        EvNext; EvNext]
       init)
  = [AsyncQueue.Yield "{a:1}"; AsyncQueue.Yield "{b:2}"]%string.
Proof. reflexivity. Qed.

Example malformed_line_is_dropped :
  delivered
    (Bridge.exec toy_parse
       [EvData (String.append (line "{a:1}")
                  (String.append (line "NOT-JSON") (line "{b:2}")));
        EvNext; EvNext; EvNext]
       init)
  = [AsyncQueue.Yield "{a:1}"; AsyncQueue.Yield "{b:2}"]%string.
Proof. reflexivity. Qed.

(** The sibling path: a failure that reaches the queue while the
    consumer is not parked is thrown from the pull, after the buffered
    events. *)
Example failure_with_buffered_events_is_thrown :
  delivered
    (Bridge.exec toy_parse
       [EvData (line "{a:1}"); EvClose (Some 2%Z) None; EvForward;
        EvNext; EvNext]
       init)
  = [AsyncQueue.Yield "{a:1}"%string;
     AsyncQueue.Throw
       (AgentProcessError "Codex exited with code 2" (Some 2%Z))].
Proof. reflexivity. Qed.

(** Exit code 0: the iteration ends normally, with an empty sequence
    when nothing was pushed. *)
Example clean_exit_completes_normally :
  let b :=
    Bridge.exec toy_parse [EvNext; EvClose (Some 0%Z) None; EvForward; EvNext]
      init in
  delivered b = [AsyncQueue.Return] /\ AsyncQueue.immediates (queue b) = [].
Proof. split; reflexivity. Qed.

(** C1, at the failing input.  The consumer is parked on the empty queue
    when the process fails.  For each of the four failure kinds (exit
    code 2; SIGKILL without cancellation; spawn failure; cancellation
    followed by SIGTERM) the pull returns [done] and [run] returns
    normally: the failure is not thrown from the pull but from a
    [setImmediate] callback. *)
Theorem parked_consumer_never_receives_failure :
  let outcome evs :=
    let b := Bridge.exec toy_parse (EvNext :: evs ++ [EvForward; EvNext]) init
    in (delivered b, rgen b, AsyncQueue.immediates (queue b)) in
  outcome [EvClose (Some 2%Z) None]
  = ([AsyncQueue.Return], Finished,
     [AgentProcessError "Codex exited with code 2" (Some 2%Z)])
  /\ outcome [EvClose None (Some "SIGKILL"%string)]
     = ([AsyncQueue.Return], Finished,
        [AgentProcessError "Codex was terminated with signal SIGKILL" None])
  /\ outcome [EvError (mkNodeError "Error" "spawn codex ENOENT")]
     = ([AsyncQueue.Return], Finished,
        [AgentSpawnError "failed to run Codex: spawn codex ENOENT"
           (mkNodeError "Error" "spawn codex ENOENT")])
  /\ outcome [EvAbort; EvClose None (Some "SIGTERM"%string)]
     = ([AsyncQueue.Return], Finished,
        [UserAbortError "Codex was aborted by user"]).
Proof. repeat split; reflexivity. Qed.

(** C6, at the failing input.  No cancellation; the process prints one
    event, the consumer receives it and parks on the empty queue; the
    process exits with code 2.  The consumer receives the event and then
    a normal end of the sequence; the [AgentProcessError] carrying code 2
    is thrown from a [setImmediate] callback, not from the iteration. *)
Theorem nonzero_exit_with_parked_consumer_returns_normally :
  let b :=
    Bridge.exec toy_parse
      [EvData (line "{a:1}"); EvNext; EvNext; EvClose (Some 2%Z) None;
       EvForward; EvNext]
      init in
  delivered b = [AsyncQueue.Yield "{a:1}"%string; AsyncQueue.Return]
  /\ rgen b = Finished
  /\ closePromise b
     = Rejected (AgentProcessError "Codex exited with code 2" (Some 2%Z))
  /\ AsyncQueue.immediates (queue b)
     = [AgentProcessError "Codex exited with code 2" (Some 2%Z)].
Proof. repeat split; reflexivity. Qed.

(** C5, as the code has it.  A cancellation request followed by SIGTERM
    or SIGKILL makes both bridges reject the lifecycle wait with the
    user-cancellation kind ([UserAbortError] in [run], [AbortError] in
    [query]).  Without a cancellation request [run] rejects with an
    [AgentProcessError] whose message names the signal when the signal is
    SIGTERM or SIGKILL, and classifies any other signal by the exit code
    alone; [query] is not given the signal and rejects with a plain
    [Error] that reports the exit code ([null] for a signalled
    process). *)
Theorem signal_termination_classification (code : option Z)
    (signal : string) :
  (signal = "SIGTERM"%string \/ signal = "SIGKILL"%string ->
   Bridge.close_settle true code (Some signal) Pending
   = Rejected (UserAbortError "Codex was aborted by user")
   /\ Bridge.close_settle false code (Some signal) Pending
      = Rejected
          (AgentProcessError
             (String.append "Codex was terminated with signal " signal) code)
   /\ includes signal
        (message_of
           (AgentProcessError
              (String.append "Codex was terminated with signal " signal) code))
      = true)
  /\ (signal <> "SIGTERM"%string -> signal <> "SIGKILL"%string ->
      forall a p,
        Bridge.close_settle a code (Some signal) p
        = Bridge.close_settle a code None p)
  /\ CliBridge.close_settle true code Pending
     = Rejected (AbortError "Codex process aborted by user")
  /\ CliBridge.close_settle false None Pending
     = Rejected (PlainError "Codex process exited with code null").
Proof.
  split_and!.
  - intros [-> | ->]; repeat split; reflexivity.
  - intros H1 H2 a p. unfold Bridge.close_settle, signal_is.
    apply String.eqb_neq in H1, H2. by rewrite H1, H2.
  - by destruct code as [[| |]|].
  - done.
Qed.

Lemma signal_termination_classification_witness :
  Bridge.close_settle true None (Some "SIGTERM"%string) Pending
  = Rejected (UserAbortError "Codex was aborted by user")
  /\ Bridge.close_settle false None (Some "SIGINT"%string) Fulfilled
     = Bridge.close_settle false None None Fulfilled.
Proof.
  pose (H := signal_termination_classification None "SIGTERM").
  pose (H' := signal_termination_classification None "SIGINT").
  split.
  - exact (proj1 (proj1 H (or_introl eq_refl))).
  - refine (proj1 (proj2 H') _ _ false Fulfilled); discriminate.
Defined.

(** C5, as the specification states it, fails: without a cancellation
    request a process killed by SIGTERM makes [query] reject with an
    error that does not name the signal, and a process killed by a signal
    other than SIGTERM and SIGKILL makes [run] reject with an error that
    does not name it either. *)
Lemma signal_name_is_not_carried :
  CliBridge.close_settle false None Pending
  = Rejected (PlainError "Codex process exited with code null")
  /\ includes "SIGTERM"
       (message_of (PlainError "Codex process exited with code null")) = false
  /\ Bridge.close_settle false None (Some "SIGSEGV"%string) Pending
     = Rejected (AgentProcessError "Codex exited with code null" None)
  /\ includes "SIGSEGV"
       (message_of (AgentProcessError "Codex exited with code null" None))
     = false.
Proof. repeat split; reflexivity. Qed.

End BridgeFacts.

(** *** More on the event queue *)

Module QueueMore.
Import AsyncQueue QueueSpec QueueFacts MoreSpec.
Section Facts.
Context {T E : Type}.
Implicit Types (st : State T E) (out : list (Obs T E)) (ops : list (Op T E)).

Lemma throws_app (l1 l2 : list (Obs T E)) :
  throws (l1 ++ l2) = throws l1 + throws l2.
Proof. induction l1 as [|[v|e|] l1 IH]; simpl; by rewrite ?IH. Qed.

Lemma all_yields_app (l1 l2 : list (Obs T E)) :
  all_yields (l1 ++ l2) = all_yields l1 && all_yields l2.
Proof. apply forallb_app. Qed.

Lemma all_yields_throws (l : list (Obs T E)) :
  all_yields l = true -> throws l = 0.
Proof. induction l as [|[v|e|] l IH]; simpl; auto; done. Qed.

Lemma all_yields_end (l : list (Obs T E)) (o : Obs T E) :
  all_yields l = true -> yields_then_end (l ++ [o]) = true.
Proof.
  induction l as [|[v|e|] l IH]; simpl; try done.
  - by destruct o.
  - intros H. specialize (IH H). by destruct (l ++ [o]).
Qed.

Lemma all_yields_well_ended (l : list (Obs T E)) :
  all_yields l = true -> yields_then_end l = true.
Proof.
  induction l as [|[v|e|] l IH]; simpl; try done.
  intros H. specialize (IH H). by destruct l.
Qed.

(** Producer calls neither complete the generator nor revive it. *)
Lemma producer_call_gen st out (op : Op T E) :
  op <> OPull ->
  (gen (step (st, out) op).1 = Completed <-> gen st = Completed)
  /\ (step (st, out) op).2 = out.
Proof.
  intros Hop. destruct st as [l pd g n im].
  destruct op as [v|e| |]; try done;
    unfold step, push, error, end_, resolve; simpl;
    destruct pd as [p|]; simpl; try done;
    destruct g as [|p'|r|]; simpl; try done;
    destruct (decide (p = p')); simpl; done.
Qed.

Lemma sound_step st out (op : Op T E) :
  sound st out -> sound (step (st, out) op).1 (step (st, out) op).2.
Proof.
  intros (Hwf&Hopen&Hone&Hgen).
  destruct (step_total st out op Hwf) as (Hwf'&Hf&Hc&Hi). simpl in *.
  split; [done|]. split_and!.
  - rewrite Hc, Hf, Hi. intros Hcl. apply orb_false_iff in Hcl as [Hcl Hop].
    rewrite Hcl. destruct (Hopen Hcl) as [Ha ->].
    rewrite all_yields_app, Ha.
    destruct op as [v|e| |]; simpl in *; done.
  - rewrite Hf, Hi. destruct (closed st) eqn:Hcl.
    + rewrite (closed_no_pending st Hwf Hcl), !app_nil_r.
      by destruct op; rewrite app_nil_r.
    + destruct (Hopen eq_refl) as [Ha Him]. rewrite Him in *.
      rewrite throws_app, (all_yields_throws _ Ha). simpl.
      destruct op as [v|e| |]; simpl; try lia.
      destruct (pending st); simpl; lia.
  - assert (op = OPull \/ op <> OPull) as [->|Hop]
      by (destruct op; (by left) || (by right)).
    + clear Hf Hc Hi Hwf'. destruct st as [l pd g n im]. simpl in *.
      unfold iterator. simpl.
      destruct g as [|p|[v|]|]; [destruct l as [|[v|e|] l]|..]; simpl in *;
        rewrite ?app_nil_r;
        first [done | by rewrite all_yields_app, Hgen | by apply all_yields_end].
    + destruct (producer_call_gen st out op Hop) as [Hg ->].
      destruct (gen (step (st, out) op).1) eqn:Hg';
        destruct (gen st) eqn:Hg''; try done;
        try (by pose proof (proj1 Hg eq_refl));
        try (by pose proof (proj2 Hg eq_refl)).
Qed.

Lemma sound_init : sound (@init T E) [].
Proof. split_and!; try done. simpl. lia. Qed.

Lemma sound_exec ops st out :
  sound st out -> sound (exec ops (st, out)).1 (exec ops (st, out)).2.
Proof.
  revert st out. induction ops as [|op ops IH]; intros st out H; [done|].
  simpl. pose proof (sound_step st out op H) as H'.
  destruct (step (st, out) op) as [st' out']. by apply IH.
Qed.

(** Pushes alone, however interleaved with pulls. *)
Lemma exec_pushes ops (ps : list T) st out :
  wf st -> closed st = false ->
  producer_calls ops = map OPush ps ->
  let c' := exec ops (st, out) in
  wf c'.1 /\ closed c'.1 = false
  /\ c'.2 ++ future c'.1 = out ++ future st ++ map Yield ps
  /\ immediates c'.1 = immediates st.
Proof.
  revert ps st out.
  induction ops as [|op ops IH]; intros ps st out Hwf Hc Hp; simpl.
  - destruct ps; [|done]. by rewrite app_nil_r.
  - pose proof (step_total st out op Hwf) as H.
    destruct (step (st, out) op) as [st' out']. simpl in H.
    rewrite Hc in H. destruct H as (Hwf'&Hf&Hc'&Hi).
    destruct op as [v|e| |]; simpl in *; try rewrite app_nil_r in Hi.
    + destruct ps as [|p ps]; simplify_eq/=.
      destruct (IH ps st' out' Hwf' Hc' ltac:(done)) as (?&?&->&->).
      rewrite app_assoc, Hf, Hi. by rewrite <- !app_assoc.
    + by destruct ps.
    + by destruct ps.
    + destruct (IH ps st' out' Hwf' Hc' Hp) as (?&?&->&->).
      rewrite app_assoc, Hf, Hi, app_nil_r. by rewrite <- !app_assoc.
Qed.

(** X1.  Hand-off: when the consumer is parked on the empty queue, a
    pushed value goes to it directly; the buffer stays empty, the resolver
    is cleared, and the consumer's next resumption yields that value. *)
Theorem push_hands_off_to_parked_consumer ops (v : T) :
  let st := (run ops).1 in
  pending st <> None ->
  let st' := push v st in
  q st' = [] /\ pending st' = None
  /\ (iterator st').2 = Some (Yield v) /\ q (iterator st').1 = [].
Proof.
  intros st Hp. destruct (exec_yields ops init [] wf_init) as [Hwf _].
  fold (run ops) in Hwf. fold st in Hwf. clearbody st.
  destruct st as [l pd g n im]. unfold wf, push, resolve, iterator in *.
  simpl in *. destruct pd as [p|]; [|done]. destruct Hwf as [-> ->].
  simpl. rewrite decide_True by done. done.
Qed.

(** X2.  Under every schedule the consumer observes values and then at
    most one terminal observation: nothing is yielded after the iteration
    has returned or thrown, and it returns or throws at most once. *)
Theorem observations_end_once ops : yields_then_end (run ops).2 = true.
Proof.
  destruct (sound_exec ops init [] sound_init) as (_&_&_&H).
  fold (run ops) in H.
  destruct (gen (run ops).1); auto using all_yields_well_ended.
Qed.

(** X3.  Under every schedule at most one failure is surfaced, counting
    both channels: the errors thrown by the iteration and the errors
    thrown from [setImmediate] callbacks are at most one together. *)
Theorem at_most_one_failure ops :
  throws (run ops).2 + length (immediates (run ops).1) <= 1.
Proof.
  destruct (sound_exec ops init [] sound_init) as (_&_&H&_).
  fold (run ops) in H. rewrite throws_app in H. lia.
Qed.

(** X4.  The first terminal call being [error(e)], after pushes only:
    the consumer receives every pushed value, and [e] is surfaced exactly
    once.  If no consumer was parked when [error] was called, [e] is
    thrown from the iteration; if one was parked, the iteration returns
    normally and [e] is thrown from a [setImmediate] callback.  Whatever
    is called afterwards changes nothing. *)
Theorem first_error_surfaces_once ops (ps : list T) (e : E) rest k :
  producer_calls ops = map OPush ps ->
  length ps < k ->
  let c := exec (pulls k) (run (ops ++ OError e :: rest)) in
  match pending (run ops).1 with
  | None => c.2 = map Yield ps ++ [Throw e] /\ immediates c.1 = []
  | Some _ => c.2 = map Yield ps ++ [Return] /\ immediates c.1 = [e]
  end.
Proof.
  intros Hp Hk c. subst c.
  assert (Heq : run (ops ++ OError e :: rest)
                = exec rest (error e (run ops).1, (run ops).2)).
  { unfold run, exec. by rewrite foldl_app. }
  rewrite Heq. clear Heq. unfold run.
  destruct (exec_pushes ops ps init [] wf_init eq_refl Hp) as (Hwf&Hc&Hf&Hi).
  destruct (exec ops (init, [])) as [st out]. simpl in Hwf, Hc, Hf, Hi.
  simpl fst. simpl snd.
  destruct (error_future st e Hwf) as (Hwf1&Hf1&Hc1&Hi1).
  rewrite Hc in Hf1. rewrite Hi in Hi1. simpl in Hi1.
  destruct (exec_closed rest (error e st) out Hwf1 Hc1) as (Hwf2&Hf2&_&Hi2).
  destruct (exec rest (error e st, out)) as [st2 out2].
  simpl in Hwf2, Hf2, Hi2. rewrite Hf1, app_assoc, Hf in Hf2.
  destruct (pulls_drain k st2 out2 Hwf2) as (_&->&_&_&->).
  - apply (f_equal length) in Hf2.
    rewrite !length_app, length_map in Hf2.
    destruct (pending st); simpl in Hf2; lia.
  - rewrite Hf2, Hi2, Hi1. by destruct (pending st).
Qed.

End Facts.

Lemma push_hands_off_to_parked_consumer_witness :
  let st' := push 5 (run (E:=nat) [OPull]).1 in
  q st' = [] /\ pending st' = None
  /\ (iterator st').2 = Some (Yield 5) /\ q (iterator st').1 = [].
Proof.
  apply (push_hands_off_to_parked_consumer [OPull] 5). discriminate.
Defined.

Lemma first_error_surfaces_once_witness :
  (exec (pulls 3) (run [OPush 1; OPull; OPull; OPush 2; OError 7; OEnd])).2
  = [Yield 1; Yield 2; Throw 7].
Proof.
  refine (proj1
    (first_error_surfaces_once [OPush 1; OPull; OPull; OPush 2] [1; 2] 7
       [OEnd] 3 _ _)); [reflexivity | simpl; lia].
Defined.

End QueueMore.

(** *** More on the bridge *)

Module BridgeMore.
Import Text Errors Bridge BridgeSpec QueueSpec QueueFacts TextFacts.
Import BridgeFacts MoreSpec QueueMore.
Section Facts.
Context {T : Type}.
Variable JSON_parse : string -> option T.
Implicit Types (b : State T) (qu : AsyncQueue.State T JsError).

Local Abbreviation Yield := (@AsyncQueue.Yield T JsError).
Local Abbreviation Return := (@AsyncQueue.Return T JsError).
Local Abbreviation Throw := (@AsyncQueue.Throw T JsError).
Local Abbreviation exec := (Bridge.exec JSON_parse).
Local Abbreviation handle := (Bridge.handle JSON_parse).

Lemma split_no_LF (s : string) :
  Forall (fun l => has_LF l = false) (split s).
Proof.
  induction s as [|c s IH]; simpl; [by repeat constructor|].
  destruct (Ascii.eqb c LF) eqn:Hc; [by constructor|].
  destruct (split s) as [|l ls].
  { constructor; [simpl; by rewrite Hc|constructor]. }
  inversion IH; subst. constructor; [|done]. simpl. by rewrite Hc.
Qed.

Lemma fragment_no_LF (s : string) :
  has_LF (List.last (split s) EmptyString) = false.
Proof.
  pose proof (split_no_LF s) as H. pose proof (split_nonempty s) as Hne.
  destruct (exists_last Hne) as (l&x&Heq). rewrite Heq in *.
  rewrite last_last. apply Forall_app in H as [_ H]. by inversion H.
Qed.

Lemma next_buffer b : buffer (next b) = buffer b.
Proof.
  unfold next, await_forward.
  destruct (rgen b); simpl; try done.
  - destruct (AsyncQueue.iterator (queue b)) as [qu [[v|e|]|]]; simpl;
      try done.
    by destruct (forward b).
  - by destruct (forward b).
Qed.

Lemma cleanup_buffer b : buffer (cleanup JSON_parse b) = buffer b.
Proof.
  unfold cleanup. destruct (truthy (trim (buffer b))); [|done].
  by destruct (JSON_parse (buffer b)).
Qed.

Lemma handle_buffer_no_LF b ev :
  has_LF (buffer b) = false -> has_LF (buffer (handle b ev)) = false.
Proof.
  intros H. destruct ev as [|data|code signal|error| |]; simpl.
  - done.
  - apply fragment_no_LF.
  - by rewrite cleanup_buffer.
  - by rewrite cleanup_buffer.
  - unfold forward_continue.
    by destruct (forward b), (closePromise b).
  - by rewrite next_buffer.
Qed.


(** X6.  The retained fragment never holds a line feed, whatever events
    have been handled: it is always (the beginning of) one line. *)
Theorem buffer_never_holds_a_line_feed (evs : list Event) :
  has_LF (buffer (exec evs init)) = false.
Proof.
  assert (H : forall b, has_LF (buffer b) = false ->
                        has_LF (buffer (exec evs b)) = false).
  { induction evs as [|ev evs IH]; intros b Hb; simpl; [done|].
    by apply IH, handle_buffer_no_LF. }
  by apply H.
Qed.

Lemma next_closePromise b :
  closePromise (next b) = closePromise b /\ aborted (next b) = aborted b.
Proof.
  unfold next, await_forward.
  destruct (rgen b); simpl; try done.
  - destruct (AsyncQueue.iterator (queue b)) as [qu [[v|e|]|]]; simpl;
      try done.
    by destruct (forward b).
  - by destruct (forward b).
Qed.

Lemma cleanup_closePromise b :
  closePromise (cleanup JSON_parse b) = closePromise b
  /\ aborted (cleanup JSON_parse b) = aborted b.
Proof.
  unfold cleanup. destruct (truthy (trim (buffer b))); [|done].
  by destruct (JSON_parse (buffer b)).
Qed.

Lemma forward_continue_closePromise b :
  closePromise (forward_continue b) = closePromise b.
Proof.
  unfold forward_continue.
  destruct (forward b); [|done..]. by destruct (closePromise b) eqn:Hp.
Qed.

Lemma alive_keeps_closePromise evs b :
  forallb alive evs = true -> closePromise (exec evs b) = closePromise b.
Proof.
  revert b. induction evs as [|ev evs IH]; intros b Hal; simpl; [done|].
  simpl in Hal. apply andb_true_iff in Hal as [Hev Hal]. rewrite (IH _ Hal).
  destruct ev as [|data|code signal|error| |]; simpl; try done.
  - apply forward_continue_closePromise.
  - apply next_closePromise.
Qed.

Lemma settled_closePromise_stays evs b :
  closePromise b <> Pending -> closePromise (exec evs b) = closePromise b.
Proof.
  revert b. induction evs as [|ev evs IH]; intros b Hp; simpl; [done|].
  assert (Hev : closePromise (handle b ev) = closePromise b).
  { destruct ev as [|data|code signal|error| |]; simpl; try done.
    - destruct (cleanup_closePromise b) as [-> ->].
      unfold close_settle.
      destruct (closePromise b); [done|..];
        repeat (case_match; simpl; try done).
    - destruct (cleanup_closePromise b) as [-> ->].
      unfold error_settle.
      destruct (closePromise b); [done|..];
        repeat (case_match; simpl; try done).
    - apply forward_continue_closePromise.
    - apply next_closePromise. }
  rewrite IH; [done|]. by rewrite Hev.
Qed.

(** X7.  The listener of the first termination event classifies the run
    once and for all: [closePromise] is settled as that listener decides
    from the cancellation flag at that moment, and no later event (a
    second ['close'] or ['error'], a late cancellation) changes it. *)
Theorem first_termination_classifies (evs1 : list Event) (ev : Event)
    (evs2 : list Event) :
  forallb alive evs1 = true ->
  is_termination ev = true ->
  closePromise (exec (evs1 ++ ev :: evs2) init)
  = classify (aborted (exec evs1 init)) ev
  /\ classify (aborted (exec evs1 init)) ev <> Pending.
Proof.
  intros Hal Hev. rewrite exec_app. simpl.
  pose proof (alive_keeps_closePromise evs1 init Hal) as Hp. simpl in Hp.
  set (b := exec evs1 init) in *.
  assert (Hc : closePromise (handle b ev) = classify (aborted b) ev
               /\ classify (aborted b) ev <> Pending).
  { destruct ev as [|data|code signal|error| |]; try done; simpl.
    - destruct (cleanup_closePromise b) as [-> ->]. rewrite Hp.
      split; [done|]. apply close_settle_settled.
    - destruct (cleanup_closePromise b) as [-> ->]. rewrite Hp.
      split; [done|]. apply error_settle_settled. }
  destruct Hc as [Hc Hne]. split; [|done].
  rewrite settled_closePromise_stays; [done|]. by rewrite Hc.
Qed.

Lemma nexts_immediates k b :
  wf (queue b) -> rgen b = Iterating ->
  (closed (queue b) = true -> forward b = Fulfilled) ->
  AsyncQueue.immediates (queue (exec (nexts k) b))
  = AsyncQueue.immediates (queue b).
Proof.
  revert b. induction k as [|k IH]; intros b Hwf Hg Hfw; simpl; [done|].
  destruct (next_total b Hwf Hg Hfw) as (Hwf'&_&_&Hr&_&Hc&Hi&_&_&_&Hfw').
  fold (nexts k). destruct Hr as [Hr|[Hr _]].
  - rewrite IH; try done. by rewrite Hc, Hfw'.
  - by rewrite (nexts_finished JSON_parse k _ Hr).
Qed.

(** What the consumer has observed, and what has gone to [setImmediate],
    once the first termination event, the continuation of [forward] and
    enough resumptions of the consumer have run. *)
Lemma termination_outcome b ev (p : Promise) (n k : nat) :
  consistent b -> closePromise b = Pending ->
  handle b ev = set_closePromise p (cleanup JSON_parse b) ->
  p <> Pending ->
  length (future (queue b)) + 2 <= k ->
  let b2 := exec (nexts n) (handle b ev) in
  let b' := exec (EvForward :: nexts k) b2 in
  delivered b'
  = delivered b ++ future (queue b) ++ flushed JSON_parse (buffer b)
    ++ [verdict p (parked b2)]
  /\ AsyncQueue.immediates (queue b')
     = AsyncQueue.immediates (queue b) ++ diverted p (parked b2).
Proof.
  intros (Hwf&Hfw&Hpf&Hrej) Hcp Hb1 Hp Hk. rewrite Hb1. clear Hb1.
  destruct (Hfw (Hpf Hcp)) as [Hop Hit].
  destruct (cleanup_future JSON_parse b Hwf)
    as (Hwf1&Hf1&Hc1&Hi1&_&_&_&Hfw1&Hr1&Hd1).
  rewrite Hop in Hf1, Hc1.
  assert (Hfl : length (flushed JSON_parse (buffer b)) <= 1).
  { unfold flushed. destruct (truthy (trim (buffer b))); [|simpl; lia].
    destruct (JSON_parse (buffer b)); simpl; lia. }
  set (b1 := set_closePromise p (cleanup JSON_parse b)).
  destruct (nexts_open JSON_parse n b1)
    as (Hwf2&Hit2&Hop2&Hd2&Hl2&Hi2&_&_&Hp2&Hfw2);
    [done|by rewrite <- Hit, <- Hr1|done|].
  simpl in Hd2, Hl2, Hi2, Hp2, Hfw2.
  rewrite Hd1, Hf1 in Hd2. rewrite Hf1 in Hl2. rewrite Hi1 in Hi2.
  rewrite Hfw1, (Hpf Hcp) in Hfw2.
  intros b2. fold b2 in Hwf2, Hit2, Hop2, Hd2, Hl2, Hi2, Hp2, Hfw2.
  clearbody b2. intros b'. subst b'. simpl.
  assert (wf (queue (forward_continue b2))
          /\ rgen (forward_continue b2) = Iterating
          /\ forward (forward_continue b2) = Fulfilled
          /\ delivered (forward_continue b2) = delivered b2
          /\ future (queue (forward_continue b2))
             = future (queue b2) ++ [verdict p (parked b2)]
          /\ AsyncQueue.immediates (queue (forward_continue b2))
             = AsyncQueue.immediates (queue b2) ++ diverted p (parked b2))
    as (Hwf3&Hit3&Hfw3&Hd3&Hf3&Hi3).
  { unfold forward_continue, verdict, diverted, parked. rewrite Hfw2, Hp2.
    destruct p as [| |err]; [done| |]; simpl.
    - destruct (end_future (queue b2) Hwf2) as (?&->&_&->).
      by rewrite Hop2, app_nil_r.
    - destruct (error_future (queue b2) err Hwf2) as (Hw&He&Hc&Hie).
      destruct (end_future _ Hw) as (?&->&_&->).
      rewrite Hc, app_nil_r, He, Hie, Hop2.
      by destruct (AsyncQueue.pending (queue b2)). }
  fold (nexts k). split.
  - rewrite nexts_drain; try done.
    + rewrite Hd3, Hf3, app_assoc, Hd2. by rewrite <- !app_assoc.
    + rewrite Hf3, length_app. simpl. rewrite length_app in Hl2. lia.
  - rewrite nexts_immediates; try done. by rewrite Hi3, Hi2.
Qed.

Lemma handle_termination b ev :
  closePromise b = Pending -> is_termination ev = true ->
  handle b ev
  = set_closePromise (classify (aborted b) ev) (cleanup JSON_parse b)
  /\ classify (aborted b) ev <> Pending.
Proof.
  intros Hp Hev. destruct ev as [|data|code signal|error| |]; try done; simpl.
  - unfold on_close. destruct (cleanup_closePromise b) as [-> ->].
    rewrite Hp. split; [done|]. apply close_settle_settled.
  - unfold on_error. destruct (cleanup_closePromise b) as [-> ->].
    rewrite Hp. split; [done|]. apply error_settle_settled.
Qed.

Lemma flushed_omap (fragment : string) :
  (forall s, truthy (trim s) = false -> JSON_parse s = None) ->
  flushed JSON_parse fragment = map Yield (omap JSON_parse [fragment]).
Proof.
  intros Hblank. unfold flushed. simpl.
  destruct (truthy (trim fragment)) eqn:Ht.
  - by destruct (JSON_parse fragment).
  - by rewrite (Hblank _ Ht).
Qed.

(** A whole run: chunks and pulls while the process is alive, the first
    termination event, pulls, the continuation of [forward], pulls. *)
Lemma run_outcome (evs : list Event) (ev : Event) (n k : nat) :
  (forall s, truthy (trim s) = false -> JSON_parse s = None) ->
  forallb alive evs = true ->
  is_termination ev = true ->
  length (complete_lines (text_of (chunks evs))) + 2 <= k ->
  let s := text_of (chunks evs) in
  let p := classify (aborted (exec evs init)) ev in
  let b2 := exec (evs ++ ev :: nexts n) init in
  let b := exec (EvForward :: nexts k) b2 in
  delivered b
  = map Yield (omap JSON_parse (complete_lines s ++ [fragment s]))
    ++ [verdict p (parked b2)]
  /\ AsyncQueue.immediates (queue b) = diverted p (parked b2).
Proof.
  intros Hblank Hal Hev Hk s p b2 b.
  destruct (exec_streaming JSON_parse evs init EmptyString consistent_init
    eq_refl Hal eq_refl eq_refl) as (Hcs&Hcp&Hb&Hd&Hi).
  simpl in Hb, Hd, Hi. fold s in Hb, Hd.
  rewrite (omap_parse_line JSON_parse _ Hblank) in Hd.
  destruct (handle_termination (exec evs init) ev Hcp Hev) as [Hh Hne].
  fold p in Hh, Hne.
  destruct (termination_outcome (exec evs init) ev p n k Hcs Hcp Hh Hne)
    as [Hdel Him].
  { apply (f_equal length) in Hd. rewrite length_app, length_map in Hd.
    pose proof (omap_length JSON_parse (complete_lines s)). fold s in Hk.
    lia. }
  subst b b2. rewrite exec_app. simpl (exec (ev :: nexts n) _).
  fold (nexts n). simpl in Hdel, Him. simpl.
  rewrite Hdel, Him, Hi, Hb, app_assoc, Hd, (flushed_omap _ Hblank).
  rewrite omap_app, map_app, <- !app_assoc. done.
Qed.

(** X8.  A clean exit delivers everything: when the process exits with
    code 0 the consumer receives the successful parses of every complete
    line and of the unterminated trailing text, in order, and then the
    sequence ends normally; nothing is thrown on either channel. *)
Theorem clean_exit_delivers_every_event (evs : list Event) (n k : nat) :
  (forall s, truthy (trim s) = false -> JSON_parse s = None) ->
  forallb alive evs = true ->
  length (complete_lines (text_of (chunks evs))) + 2 <= k ->
  let s := text_of (chunks evs) in
  let b :=
    exec (evs ++ EvClose (Some 0%Z) None :: nexts n ++ EvForward :: nexts k)
      init in
  delivered b
  = map Yield (omap JSON_parse (complete_lines s ++ [fragment s])) ++ [Return]
  /\ AsyncQueue.immediates (queue b) = [].
Proof.
  intros Hblank Hal Hk s b.
  destruct (run_outcome evs (EvClose (Some 0%Z) None) n k Hblank Hal eq_refl
    Hk) as [Hd Hi].
  subst b.
  change (evs ++ EvClose (Some 0%Z) None :: nexts n ++ EvForward :: nexts k)
    with (evs ++ (EvClose (Some 0%Z) None :: nexts n)
              ++ (EvForward :: nexts k)).
  rewrite app_assoc, exec_app. exact (conj Hd Hi).
Qed.

(** X9.  A failed run surfaces its failure exactly once, after every
    event.  Whatever the first termination event is, if its listener
    rejects [closePromise] with [err], the consumer receives the parses
    of every complete line and of the trailing text and then: if it is
    not parked on the queue when [forward] continues, [err] thrown from
    the pull; if it is parked, a normal end of the sequence, with [err]
    thrown from a [setImmediate] callback instead. *)
Theorem failed_run_surfaces_failure_once (evs : list Event) (ev : Event)
    (err : JsError) (n k : nat) :
  (forall s, truthy (trim s) = false -> JSON_parse s = None) ->
  forallb alive evs = true ->
  is_termination ev = true ->
  classify (aborted (exec evs init)) ev = Rejected err ->
  length (complete_lines (text_of (chunks evs))) + 2 <= k ->
  let s := text_of (chunks evs) in
  let events := map Yield (omap JSON_parse (complete_lines s ++ [fragment s])) in
  let b2 := exec (evs ++ ev :: nexts n) init in
  let b := exec (EvForward :: nexts k) b2 in
  if parked b2
  then delivered b = events ++ [Return]
       /\ AsyncQueue.immediates (queue b) = [err]
  else delivered b = events ++ [Throw err]
       /\ AsyncQueue.immediates (queue b) = [].
Proof.
  intros Hblank Hal Hev Hcl Hk s events b2 b.
  destruct (run_outcome evs ev n k Hblank Hal Hev Hk) as [Hd Hi].
  rewrite Hcl in Hd, Hi. fold b2 in Hd, Hi. fold b in Hd, Hi.
  fold s in Hd. fold events in Hd. unfold verdict, diverted in Hd, Hi.
  by destruct (parked b2).
Qed.

Lemma sound_producer_call qu (out : list (AsyncQueue.Obs T JsError))
    (op : AsyncQueue.Op T JsError) :
  op <> AsyncQueue.OPull ->
  sound qu out ->
  sound (AsyncQueue.step (qu, out) op).1 out
  /\ (AsyncQueue.gen qu = AsyncQueue.Completed ->
      AsyncQueue.gen (AsyncQueue.step (qu, out) op).1 = AsyncQueue.Completed).
Proof.
  intros Hop H. pose proof (sound_step qu out op H) as H'.
  destruct (producer_call_gen qu out op Hop) as [Hg Ho].
  rewrite Ho in H'. split; [done|]. apply Hg.
Qed.

Lemma sound_foldl_on_line (lines : list string) qu
    (out : list (AsyncQueue.Obs T JsError)) :
  sound qu out ->
  sound (foldl (on_line JSON_parse) qu lines) out
  /\ (AsyncQueue.gen qu = AsyncQueue.Completed ->
      AsyncQueue.gen (foldl (on_line JSON_parse) qu lines)
      = AsyncQueue.Completed).
Proof.
  revert qu. induction lines as [|l lines IH]; intros qu H; simpl; [done|].
  assert (Hl : sound (on_line JSON_parse qu l) out
               /\ (AsyncQueue.gen qu = AsyncQueue.Completed ->
                   AsyncQueue.gen (on_line JSON_parse qu l)
                   = AsyncQueue.Completed)).
  { unfold on_line. destruct (truthy (trim l)); [|done].
    destruct (JSON_parse l) as [obj|]; [|done].
    by apply (sound_producer_call qu out (AsyncQueue.OPush obj)). }
  destruct Hl as [Hs Hg]. destruct (IH _ Hs) as [Hs' Hg']. auto.
Qed.

Lemma sound_cleanup b (out : list (AsyncQueue.Obs T JsError)) :
  sound (queue b) out ->
  sound (queue (cleanup JSON_parse b)) out
  /\ (AsyncQueue.gen (queue b) = AsyncQueue.Completed ->
      AsyncQueue.gen (queue (cleanup JSON_parse b)) = AsyncQueue.Completed)
  /\ rgen (cleanup JSON_parse b) = rgen b
  /\ delivered (cleanup JSON_parse b) = delivered b.
Proof.
  intros H. unfold cleanup. destruct (truthy (trim (buffer b))); [|done].
  destruct (JSON_parse (buffer b)) as [obj|]; [|done]. simpl.
  destruct (sound_producer_call (queue b) out (AsyncQueue.OPush obj))
    as [? ?]; done.
Qed.

Lemma iterator_completes qu qu' (o : AsyncQueue.Obs T JsError) :
  AsyncQueue.iterator qu = (qu', Some o) -> is_terminal o = true ->
  AsyncQueue.gen qu' = AsyncQueue.Completed.
Proof.
  destruct qu as [l pd g m im]. unfold AsyncQueue.iterator. simpl.
  destruct g as [|p|[v|]|]; simpl; try destruct l as [|[v'|e|] l];
    intros; simplify_eq/=; done.
Qed.

Lemma well_ended_without_last (l : list (AsyncQueue.Obs T JsError))
    (o : AsyncQueue.Obs T JsError) :
  yields_then_end (l ++ [o]) = true -> all_yields l = true.
Proof.
  induction l as [|[v|e|] l IH]; simpl; try done.
  - destruct (l ++ [o]) eqn:Heq; [by destruct l|]. done.
  - by destruct l.
  - by destruct l.
Qed.

Lemma steady_init : steady (@init T).
Proof.
  split_and!; [apply consistent_init|apply sound_init|done].
Qed.

Lemma steady_handle b ev : steady b -> steady (handle b ev).
Proof.
  intros (Hcs&Hs&Hg). split; [by apply consistent_handle|].
  destruct ev as [|data|code signal|error| |]; simpl.
  - done.
  - unfold on_stdout_data, queue_out. simpl.
    destruct (sound_foldl_on_line
      (removelast (split (String.append (buffer b) data))) (queue b)
      (queue_out b) Hs) as [Hs' Hg']. auto.
  - unfold on_close, queue_out. simpl.
    destruct (sound_cleanup b (queue_out b) Hs) as (Hs'&Hg'&Hr&Hd).
    rewrite Hr, Hd. auto.
  - unfold on_error, queue_out. simpl.
    destruct (sound_cleanup b (queue_out b) Hs) as (Hs'&Hg'&Hr&Hd).
    rewrite Hr, Hd. auto.
  - unfold forward_continue.
    destruct (forward b); [|done..].
    destruct (closePromise b) as [| |err]; [done| |]; unfold queue_out; simpl.
    + destruct (sound_producer_call (queue b) (queue_out b) AsyncQueue.OEnd)
        as [? ?]; auto.
    + destruct (sound_producer_call (queue b) (queue_out b)
        (AsyncQueue.OError err)) as [Hs1 Hg1]; [done|done|].
      destruct (sound_producer_call _ (queue_out b) AsyncQueue.OEnd
        ltac:(done) Hs1) as [? ?]. simpl in *. auto.
  - destruct Hcs as (_&_&_&Hrej).
    unfold next, await_forward. destruct (rgen b) eqn:Hr.
    + pose proof (sound_step (queue b) (queue_out b) AsyncQueue.OPull Hs)
        as Hs'.
      pose proof (iterator_completes (queue b)) as Hcomp.
      unfold queue_out in Hs'. rewrite Hr, app_nil_r in Hs'. simpl in Hs'.
      destruct (AsyncQueue.iterator (queue b)) as [qu [[v|e|]|]];
        simpl in Hs'.
      * unfold queue_out. simpl. rewrite Hr, app_nil_r. done.
      * unfold queue_out. simpl. rewrite app_nil_r.
        split; [done|]. intros _. by apply (Hcomp qu (AsyncQueue.Throw e)).
      * pose proof (Hcomp qu Return eq_refl eq_refl) as Hc. simpl.
        destruct (forward b) as [| |rr] eqn:Hf;
          [| |by destruct (Hrej rr)]; unfold queue_out; simpl;
          rewrite ?app_nil_r; done.
      * unfold queue_out. simpl. rewrite Hr. done.
    + destruct (forward b) as [| |rr] eqn:Hf;
        [| |by destruct (Hrej rr)]; unfold queue_out in *; simpl;
        rewrite ?Hr in *; rewrite ?app_nil_r; try done.
      split; [done|]. intros _. by apply Hg.
    + unfold queue_out in *. by rewrite Hr in *.
Qed.

Lemma steady_exec evs b : steady b -> steady (exec evs b).
Proof.
  revert b. induction evs as [|ev evs IH]; intros b H; simpl; [done|].
  by apply IH, steady_handle.
Qed.

(** X10.  Idempotent termination of [run]: whatever events occur, in
    whatever order (several termination events, events after the end),
    the consumer of [run] observes values and then at most one end or
    throw, and at most one failure is surfaced, counting the throws from
    the pull and the throws from [setImmediate] callbacks together. *)
Theorem run_ends_once_and_fails_at_most_once (evs : list Event) :
  let b := exec evs init in
  yields_then_end (delivered b) = true
  /\ throws (delivered b) + length (AsyncQueue.immediates (queue b)) <= 1.
Proof.
  intros b. destruct (steady_exec evs init steady_init)
    as (_&(_&_&Hone&Hgen)&Hg).
  fold b in Hone, Hgen, Hg. unfold queue_out in *. split.
  - destruct (rgen b) eqn:Hr.
    + rewrite app_nil_r in Hgen.
      destruct (AsyncQueue.gen (queue b)); auto using all_yields_well_ended.
    + rewrite Hg in Hgen by done.
      apply all_yields_well_ended. by apply well_ended_without_last in Hgen.
    + rewrite app_nil_r in Hgen. by rewrite Hg in Hgen.
  - rewrite !throws_app in Hone. lia.
Qed.

End Facts.

Lemma first_termination_classifies_witness :
  closePromise
    (Bridge.exec toy_parse
       ([EvData (line "{a:1}")]
        ++ EvClose None (Some "SIGTERM"%string)
           :: [EvForward; EvAbort; EvError (mkNodeError "AbortError" "late")])
       init)
  = Rejected
      (AgentProcessError "Codex was terminated with signal SIGTERM" None).
Proof.
  refine (proj1 (first_termination_classifies toy_parse
    [EvData (line "{a:1}")] (EvClose None (Some "SIGTERM"%string))
    [EvForward; EvAbort; EvError (mkNodeError "AbortError" "late")] _ _));
    reflexivity.
Defined.

Lemma clean_exit_delivers_every_event_witness :
  let evs := [EvData (String.append (line "{a:1}") "{b:2}"); EvNext] in
  delivered
    (Bridge.exec toy_parse
       (evs ++ EvClose (Some 0%Z) None :: nexts 1 ++ EvForward :: nexts 3)
       init)
  = [AsyncQueue.Yield "{a:1}"; AsyncQueue.Yield "{b:2}";
     AsyncQueue.Return]%string.
Proof.
  refine (proj1 (clean_exit_delivers_every_event toy_parse
    [EvData (String.append (line "{a:1}") "{b:2}"); EvNext] 1 3 _ _ _)).
  - intros s H. unfold toy_parse. rewrite H. reflexivity.
  - reflexivity.
  - simpl. lia.
Defined.

Lemma failed_run_surfaces_failure_once_witness :
  let evs := [EvData (String.append (line "{a:1}") "{b:2}"); EvNext] in
  let b :=
    Bridge.exec toy_parse (EvForward :: nexts 3)
      (Bridge.exec toy_parse (evs ++ EvClose (Some 2%Z) None :: nexts 0) init)
  in
  delivered b
  = [AsyncQueue.Yield "{a:1}"%string; AsyncQueue.Yield "{b:2}"%string;
     AsyncQueue.Throw (AgentProcessError "Codex exited with code 2" (Some 2%Z))]
  /\ AsyncQueue.immediates (queue b) = [].
Proof.
  refine (failed_run_surfaces_failure_once toy_parse
    [EvData (String.append (line "{a:1}") "{b:2}"); EvNext]
    (EvClose (Some 2%Z) None)
    (AgentProcessError "Codex exited with code 2" (Some 2%Z)) 0 3 _ _ _ _ _).
  - intros s H. unfold toy_parse. rewrite H. reflexivity.
  - reflexivity.
  - reflexivity.
  - reflexivity.
  - simpl. lia.
Defined.

End BridgeMore.

(** *** The argument list *)

Module ArgsFacts.
Import Text RunArgs MoreSpec.

Lemma push_value_eq (flag : string) (field : option string)
    (args : list string) :
  push_value flag field args = args ++ value_args flag field.
Proof.
  unfold push_value, value_args. destruct field as [v|]; [|by rewrite app_nil_r].
  destruct (truthy v); [done|by rewrite app_nil_r].
Qed.

Lemma push_flag_eq (flag : string) (field : option bool)
    (args : list string) :
  push_flag flag field args = args ++ flag_args flag field.
Proof.
  unfold push_flag, flag_args.
  destruct field as [[|]|]; by rewrite ?app_nil_r.
Qed.

(** The argument list is the fixed head followed by what each option
    contributes, in the order of the source. *)
Lemma build_args_eq (prompt : string) (o : Options) :
  build_args prompt o
  = ["exec"; prompt; "--json"]%string
    ++ value_args "--config" (config o)
    ++ value_args "--image" (image o)
    ++ value_args "--cd" (cd o)
    ++ value_args "--sandbox" (sandbox o)
    ++ value_args "--profile" (profile o)
    ++ flag_args "--full-auto" (fullAuto o)
    ++ flag_args "--dangerously-bypass-approvals-and-sandbox"
         (dangerouslyBypassApprovalsAndSandbox o)
    ++ flag_args "--skip-git-repo-check" (skipGitRepoCheck o)
    ++ value_args "--color" (color o)
    ++ value_args "--output-last-message" (outputLastMessage o)
    ++ value_args "--model" (model o).
Proof.
  unfold build_args. rewrite !push_value_eq, !push_flag_eq.
  by rewrite <- !app_assoc.
Qed.

Lemma value_args_length (flag : string) (field : option string) :
  length (value_args flag field) <= 2.
Proof.
  unfold value_args. destruct field as [v|]; [|simpl; lia].
  destruct (truthy v); simpl; lia.
Qed.

Lemma flag_args_length (flag : string) (field : option bool) :
  length (flag_args flag field) <= 1.
Proof. unfold flag_args. destruct field as [[|]|]; simpl; lia. Qed.

Lemma value_args_nil (flag : string) (field : option string) :
  value_args flag field = []
  <-> match field with
      | Some value => negb (truthy value)
      | None => true
      end = true.
Proof.
  unfold value_args. destruct field as [v|]; [|done].
  by destruct (truthy v).
Qed.

Lemma flag_args_nil (flag : string) (field : option bool) :
  flag_args flag field = [] <-> negb (default false field) = true.
Proof. unfold flag_args. by destruct field as [[|]|]. Qed.

(** X11.  The argument list always starts with [exec], the prompt as one
    argument, and [--json]; at most nineteen arguments follow. *)
Theorem args_head_and_bound (prompt : string) (o : Options) :
  exists rest,
    build_args prompt o = "exec"%string :: prompt :: "--json"%string :: rest
    /\ length rest <= 19.
Proof.
  rewrite build_args_eq. eexists. split; [reflexivity|].
  rewrite !length_app.
  pose proof (value_args_length "--config" (config o)).
  pose proof (value_args_length "--image" (image o)).
  pose proof (value_args_length "--cd" (cd o)).
  pose proof (value_args_length "--sandbox" (sandbox o)).
  pose proof (value_args_length "--profile" (profile o)).
  pose proof (flag_args_length "--full-auto" (fullAuto o)).
  pose proof (flag_args_length "--dangerously-bypass-approvals-and-sandbox"
                (dangerouslyBypassApprovalsAndSandbox o)).
  pose proof (flag_args_length "--skip-git-repo-check" (skipGitRepoCheck o)).
  pose proof (value_args_length "--color" (color o)).
  pose proof (value_args_length "--output-last-message" (outputLastMessage o)).
  pose proof (value_args_length "--model" (model o)).
  lia.
Qed.

(** X12.  Only truthy options reach the command line: the argument list
    is just [exec], the prompt and [--json] exactly when every option is
    absent, the empty string, or [false]. *)
Theorem falsy_options_add_nothing (prompt : string) (o : Options) :
  build_args prompt o = ["exec"; prompt; "--json"]%string
  <-> all_falsy o = true.
Proof.
  rewrite build_args_eq. unfold all_falsy. simpl.
  rewrite !andb_true_iff.
  rewrite <- (value_args_nil "--config" (config o)),
    <- (value_args_nil "--image" (image o)),
    <- (value_args_nil "--cd" (cd o)),
    <- (value_args_nil "--sandbox" (sandbox o)),
    <- (value_args_nil "--profile" (profile o)),
    <- (value_args_nil "--color" (color o)),
    <- (value_args_nil "--output-last-message" (outputLastMessage o)),
    <- (value_args_nil "--model" (model o)),
    <- (flag_args_nil "--full-auto" (fullAuto o)),
    <- (flag_args_nil "--dangerously-bypass-approvals-and-sandbox"
          (dangerouslyBypassApprovalsAndSandbox o)),
    <- (flag_args_nil "--skip-git-repo-check" (skipGitRepoCheck o)).
  split.
  - intros H. injection H as H.
    repeat (apply app_eq_nil in H as [? H]). by split_and!.
  - intros ((->&->&->&->&->&->&->&->&_)&(->&->&->&_)). done.
Qed.

Lemma value_args_truthy (flag value : string) :
  truthy value = true -> value_args flag (Some value) = [flag; value].
Proof. intros H. unfold value_args. by rewrite H. Qed.

Lemma found_here (flag value : string) (rest : list string) :
  exists pre post, [flag; value] ++ rest = pre ++ flag :: value :: post.
Proof. by exists [], rest. Qed.

Lemma found_last (flag value : string) :
  exists pre post, [flag; value] = pre ++ flag :: value :: post.
Proof. by exists [], []. Qed.

Lemma found_later (x rest : list string) (flag value : string) :
  (exists pre post, rest = pre ++ flag :: value :: post) ->
  exists pre post, x ++ rest = pre ++ flag :: value :: post.
Proof. intros (pre&post&->). exists (x ++ pre), post. by rewrite app_assoc. Qed.

(** X13.  Every truthy option reaches the command line: an option with
    a non-empty value appears as its flag immediately followed by the
    value, and a switch that is [true] appears as its flag. *)
Theorem truthy_options_are_passed (prompt : string) (o : Options) :
  (forall flag get value,
     In (flag, get) value_options ->
     get o = Some value -> truthy value = true ->
     exists pre post, build_args prompt o = pre ++ flag :: value :: post)
  /\ (forall flag get,
        In (flag, get) switch_options ->
        get o = Some true -> In flag (build_args prompt o)).
Proof.
  split.
  - intros flag get value Hin Hget Ht. rewrite build_args_eq.
    simpl in Hin.
    repeat (destruct Hin as [Hin|Hin];
            [injection Hin as <- <-; rewrite Hget, (value_args_truthy _ _ Ht);
             repeat first [apply found_here | apply found_last
                          | apply found_later]|]).
    done.
  - intros flag get Hin Hget. rewrite build_args_eq.
    simpl in Hin.
    repeat (destruct Hin as [Hin|Hin];
            [injection Hin as <- <-; rewrite Hget, !in_app_iff; simpl; tauto|]).
    done.
Qed.

Lemma truthy_options_are_passed_witness :
  exists pre post,
    build_args "fix it"
      (mkOptions None None (Some "o3"%string) (Some "read-only"%string) None
         (Some true) None None None None None)
    = pre ++ "--sandbox"%string :: "read-only"%string :: post.
Proof.
  refine (proj1
    (truthy_options_are_passed "fix it"
       (mkOptions None None (Some "o3"%string) (Some "read-only"%string) None
          (Some true) None None None None None))
    "--sandbox"%string sandbox "read-only"%string _ eq_refl eq_refl).
  simpl. tauto.
Defined.

Lemma falsy_options_add_nothing_witness :
  build_args "fix it"
    (mkOptions (Some EmptyString) None None None None (Some false) None None
       None None None)
  = ["exec"; "fix it"; "--json"]%string.
Proof.
  apply (proj2
    (falsy_options_add_nothing "fix it"
       (mkOptions (Some EmptyString) None None None None (Some false) None
          None None None None))).
  reflexivity.
Defined.

End ArgsFacts.

(** *** Locating the bundled binary *)

Module PlatformFacts.
Import Platform.

Local Ltac string_cases :=
  repeat match goal with
         | |- context [String.eqb ?x ?y] =>
             destruct (String.eqb_spec x y); subst; simpl
         | H : context [String.eqb ?x ?y] |- _ =>
             destruct (String.eqb_spec x y); subst; simpl in H
         end.

Lemma targetTriple_supported (platform arch : string) :
  (exists target, targetTriple platform arch = Some target)
  <-> In (platform, arch) supported.
Proof.
  unfold targetTriple, supported. simpl. string_cases;
    (split; [intros [t Ht]; simplify_eq; tauto
            |intros H; try (by eexists);
             repeat (destruct H as [H|H]; [by simplify_eq|]); done]).
Qed.

(** X14.  [resolveCodexBinary] of utils.ts returns the path of the
    bundled binary exactly for the seven platform and architecture pairs
    it knows (linux or android on x64 or arm64, darwin on x64 or arm64,
    win32 on x64); for every other pair it throws an error that names the
    platform and the architecture. *)
Theorem resolveCodexBinary_supported_platforms
    (path_join : list string -> string) (dirname platform arch : string) :
  (In (platform, arch) supported ->
   exists target,
     targetTriple platform arch = Some target
     /\ resolveCodexBinary path_join dirname platform arch
        = Returns (binary_path path_join dirname target))
  /\ (~ In (platform, arch) supported ->
      resolveCodexBinary path_join dirname platform arch
      = Throws
          (String.append "Unsupported platform: "
             (String.append platform
                (String.append " (" (String.append arch ")"))))).
Proof.
  unfold resolveCodexBinary. split.
  - intros H. apply targetTriple_supported in H as [t Ht].
    exists t. by rewrite Ht.
  - intros H. destruct (targetTriple platform arch) as [t|] eqn:Ht; [|done].
    destruct H. apply targetTriple_supported. by exists t.
Qed.

(** X15.  Where utils.ts finds a bundled binary, the copy of the bridge
    shipped with codex-cli looks for the same file: it returns that path
    when the file exists and falls back to [codex] on PATH when it does
    not. *)
Theorem copies_resolve_the_same_binary
    (path_join : list string -> string) (existsSync : string -> bool)
    (dirname platform arch bin : string) :
  resolveCodexBinary path_join dirname platform arch = Returns bin ->
  resolveCodexBinary_or_PATH path_join existsSync dirname platform arch
  = if existsSync bin then bin else "codex"%string.
Proof.
  unfold resolveCodexBinary, resolveCodexBinary_or_PATH.
  destruct (targetTriple platform arch) as [t|] eqn:Ht; [|done].
  intros [= <-].
  assert (triple platform arch = Some t) as ->; [|done].
  revert Ht. unfold targetTriple, triple. string_cases; intros; by simplify_eq.
Qed.

Lemma resolveCodexBinary_supported_platforms_witness :
  (exists target,
     targetTriple "android" "arm64" = Some target
     /\ resolveCodexBinary (String.concat "/") "/pkg/dist" "android" "arm64"
        = Returns (binary_path (String.concat "/") "/pkg/dist" target))
  /\ resolveCodexBinary (String.concat "/") "/pkg/dist" "win32" "arm64"
     = Throws "Unsupported platform: win32 (arm64)".
Proof.
  split.
  - apply (proj1 (resolveCodexBinary_supported_platforms (String.concat "/")
                    "/pkg/dist" "android" "arm64")).
    simpl. tauto.
  - apply (proj2 (resolveCodexBinary_supported_platforms (String.concat "/")
                    "/pkg/dist" "win32" "arm64")).
    simpl. intuition discriminate.
Defined.

Lemma copies_resolve_the_same_binary_witness :
  resolveCodexBinary_or_PATH (String.concat "/") (fun _ => true) "/pkg/dist"
    "darwin" "arm64"
  = "/pkg/dist/../bin/codex-aarch64-apple-darwin"%string.
Proof.
  apply (copies_resolve_the_same_binary (String.concat "/") (fun _ => true)
           "/pkg/dist" "darwin" "arm64"
           "/pkg/dist/../bin/codex-aarch64-apple-darwin").
  reflexivity.
Defined.

End PlatformFacts.

(** *** The JSON normaliser *)

Module ParseStdoutFacts.
Import Text ParseStdout.

Lemma trimEnd_LF (t : string) :
  trimEnd (String.append t (String LF EmptyString)) = trimEnd t.
Proof. induction t as [|c t IH]; simpl; [done|]. by rewrite IH. Qed.

Lemma trimEnd_idem (s : string) : trimEnd (trimEnd s) = trimEnd s.
Proof.
  induction s as [|c s IH]; simpl; [done|].
  destruct (trimEnd s) as [|c' t] eqn:Ht.
  - destruct (is_white_space c) eqn:Hc; simpl; [done|]. by rewrite Hc.
  - simpl in *. by rewrite IH.
Qed.

Lemma trimStart_head (s : string) :
  match trimStart s with
  | EmptyString => True
  | String c _ => is_white_space c = false
  end.
Proof.
  induction s as [|c s IH]; simpl; [done|].
  destruct (is_white_space c) eqn:Hc; [done|]. by simpl.
Qed.

Lemma trimEnd_head (c : ascii) (s : string) :
  is_white_space c = false ->
  exists t, trimEnd (String c s) = String c t.
Proof.
  intros Hc. simpl. destruct (trimEnd s); [|by eexists].
  rewrite Hc. by eexists.
Qed.

(** A trimmed text that is not empty starts with a character that is
    not white space. *)
Lemma trim_head (s : string) :
  match trim s with
  | EmptyString => True
  | String c _ => is_white_space c = false
  end.
Proof.
  unfold trim. pose proof (trimStart_head s) as H.
  destruct (trimStart s) as [|c u]; [done|].
  destruct (trimEnd_head c u H) as [t ->]. done.
Qed.

(** Trimming is idempotent, and a line feed added to a trimmed text is
    trimmed away again. *)
Lemma trim_line (s : string) :
  truthy (trim s) = true ->
  trim (String.append (trim s) (String LF EmptyString)) = trim s.
Proof.
  intros Ht. pose proof (trim_head s) as Hh.
  destruct (trim s) as [|c t] eqn:Heq; [done|].
  unfold trim at 1. simpl trimStart. rewrite Hh.
  change (String c (String.append t (String LF EmptyString)))
    with (String.append (String c t) (String LF EmptyString)).
  rewrite trimEnd_LF, <- Heq. unfold trim. apply trimEnd_idem.
Qed.

Section Facts.
Context {T : Type}.
Variable JSON_parse : string -> option T.

(** X16.  The normaliser writes only text that parsed: whatever it
    writes is the trimmed input followed by one line feed, the trimmed
    input is not empty and [JSON.parse] accepted it; and the exit code is
    set to 1 exactly when nothing is written. *)
Theorem parseStdout_writes_only_parsed_input (stdin : Stdin)
    (write_ok : bool) :
  let r := parseStdout JSON_parse stdin write_ok in
  (written r = None <-> exitCode r = Some 1)
  /\ (forall w, written r = Some w ->
        exists chunks,
          stdin = Ends chunks
          /\ w = String.append (trim (read_all chunks)) (String LF EmptyString)
          /\ truthy (trim (read_all chunks)) = true
          /\ JSON_parse (trim (read_all chunks)) <> None).
Proof.
  unfold parseStdout. destruct stdin as [chunks|chunks]; simpl; [|done].
  destruct (truthy (trim (read_all chunks))) eqn:Ht; simpl; [|done].
  destruct (JSON_parse (trim (read_all chunks))) as [obj|] eqn:Hp; simpl;
    [|done].
  destruct write_ok; simpl; [|done].
  split; [done|]. intros w [= <-]. exists chunks. by rewrite Hp.
Qed.

(** X17.  The normaliser is idempotent: fed its own output (in one
    chunk), it writes that output again and leaves the exit code
    unset. *)
Theorem parseStdout_idempotent (chunks : list string) (w : string) :
  written (parseStdout JSON_parse (Ends chunks) true) = Some w ->
  parseStdout JSON_parse (Ends [w]) true = mkResult (Some w) None.
Proof.
  unfold parseStdout. cbv zeta.
  destruct (truthy (trim (read_all chunks))) eqn:Ht; simpl; [|done].
  destruct (JSON_parse (trim (read_all chunks))) as [obj|] eqn:Hp; simpl;
    [|done].
  intros [= <-].
  change (read_all [String.append (trim (read_all chunks))
                      (String LF EmptyString)])
    with (String.append (trim (read_all chunks)) (String LF EmptyString)).
  by rewrite (trim_line _ Ht), Ht, Hp.
Qed.

End Facts.

Lemma parseStdout_writes_only_parsed_input_witness :
  exists chunks,
    Ends [" {a"; ":1} "]%string = Ends chunks
    /\ "{a:1}"%string
       = trim (read_all chunks)
    /\ truthy (trim (read_all chunks)) = true.
Proof.
  destruct (proj2 (parseStdout_writes_only_parsed_input
                     BridgeSpec.toy_parse (Ends [" {a"; ":1} "]%string) true)
              (BridgeSpec.line "{a:1}") eq_refl)
    as (chunks & Hs & Hw & Ht & _).
  exists chunks. split; [exact Hs|]. split; [|exact Ht].
  injection Hs as <-. reflexivity.
Defined.

Lemma parseStdout_idempotent_witness :
  parseStdout BridgeSpec.toy_parse (Ends [BridgeSpec.line "{a:1}"]) true
  = mkResult (Some (BridgeSpec.line "{a:1}")) None.
Proof.
  apply (parseStdout_idempotent BridgeSpec.toy_parse [" {a"; ":1} "]%string
           (BridgeSpec.line "{a:1}")).
  reflexivity.
Defined.

End ParseStdoutFacts.

(** *** The ['close'] listeners and a cancelled process that exits
    cleanly *)

Module ListenerFacts.
Import Errors.

(** X18.  A process that exits with code 0 without having been killed by
    SIGTERM or SIGKILL is a success for [run] whether or not cancellation
    was requested, while [query] reports a cancelled run as [AbortError]
    even then, and as a success only without cancellation. *)
Theorem clean_exit_of_a_cancelled_process (signal : option string)
    (is_aborted : bool) :
  signal <> Some "SIGTERM"%string -> signal <> Some "SIGKILL"%string ->
  Bridge.close_settle is_aborted (Some 0%Z) signal Pending = Fulfilled
  /\ CliBridge.close_settle true (Some 0%Z) Pending
     = Rejected (AbortError "Codex process aborted by user")
  /\ CliBridge.close_settle false (Some 0%Z) Pending = Fulfilled.
Proof.
  intros H1 H2. split; [|done]. unfold Bridge.close_settle, Bridge.signal_is.
  destruct signal as [s|]; [|done].
  destruct (String.eqb_spec s "SIGTERM") as [->|_]; [done|].
  destruct (String.eqb_spec s "SIGKILL") as [->|_]; done.
Qed.

Lemma clean_exit_of_a_cancelled_process_witness :
  Bridge.close_settle true (Some 0%Z) None Pending = Fulfilled.
Proof.
  apply (proj1 (clean_exit_of_a_cancelled_process None true
                  ltac:(discriminate) ltac:(discriminate))).
Defined.

End ListenerFacts.
